(** * contextualSpellCheck: a shallow embedding of [ContextualSpellCheck]

    The development follows [contextualSpellCheck/contextualSpellCheck.py]:
    misspell identification against a vocabulary, candidate generation by
    masking one token at a time, candidate ranking by edit distance, the
    assembly of the corrected text inside [__call__] and [check], and the
    getters attached to documents, spans and tokens.

    Modelling choices.
    - A Python [str] is a [string] with one symbol per character: the
      strings represented are those of code points below 256, and lengths,
      edit distances and [str.lower] are those of Python on them.
    - A spaCy [Token] is a record of the attributes the code reads.  All tokens
      handled in one run belong to one document, where spaCy compares and
      hashes tokens by their position; on the tokens of a document whose
      indices are its positions ([Doc.wf]) this is equality of records.
    - A Python [dict] keyed by tokens is a [gmap Token.t _].
    - The custom extensions [doc._.*] are fields of [Doc.t]; the functions
      that mutate the document return the updated document.
    - The calls into spaCy and into the BERT tokenizer and model are recorded
      in a trace of [Event]s threaded through a small exception-and-trace
      monad [M].  Debug printing and timing ([timeLog]) are not modelled. *)

From Stdlib Require Import Ascii QArith.
From stdpp Require Import gmap strings list fin_maps.


(** ** Python strings *)

(** [str.lower()] on the code points below 256: the capitals [A]-[Z]
    (65-90), [À]-[Ö] (192-214) and [Ø]-[Þ] (216-222) go to the small letter
    32 places above; every other character, the sign [×] (215) and the
    letter [ß] (223) among them, is left as it is. *)
Definition lower_char (c : ascii) : ascii :=
  let n := nat_of_ascii c in
  if (65 <=? n)%nat && (n <=? 90)%nat
     || (192 <=? n)%nat && (n <=? 214)%nat
     || (216 <=? n)%nat && (n <=? 222)%nat
  then ascii_of_nat (n + 32) else c.

Fixpoint lower (s : string) : string :=
  match s with
  | EmptyString => EmptyString
  | String c s' => String (lower_char c) (lower s')
  end.

(** ** The [editdistance] package

    [editdistance.eval a b] is the Levenshtein distance between two
    sequences.  It is computed here row by row: [next_row] fills the row of
    one more character of [a] from the previous row. *)
Module editdistance.

Fixpoint next_row (c : ascii) (b : string) (prev : list nat) (diag left : nat)
    : list nat :=
  match b, prev with
  | String d b', up :: prev' =>
      let cost := if Ascii.eqb c d then 0 else 1 in
      let v := Nat.min (Nat.min (up + 1) (left + 1)) (diag + cost) in
      v :: next_row c b' prev' up v
  | _, _ => []
  end.

Definition step_row (prev : list nat) (c : ascii) (b : string) : list nat :=
  match prev with
  | [] => []
  | p0 :: prev' => (p0 + 1) :: next_row c b prev' p0 (p0 + 1)
  end.

Fixpoint rows (a b : string) (prev : list nat) : list nat :=
  match a with
  | EmptyString => prev
  | String c a' => rows a' b (step_row prev c b)
  end.

Definition eval (a b : string) : nat :=
  List.last (rows a b (seq 0 (S (String.length b)))) 0.

End editdistance.

(** ** spaCy tokens and documents *)

Module Token.

Record t : Type := mk {
  i : nat;               (* position in the document *)
  text : string;         (* surface text *)
  whitespace_ : string;  (* trailing whitespace *)
  ent_type_ : string;    (* entity label, empty when there is none *)
  like_num : bool;
  like_email : bool;
  like_url : bool
}.

Definition text_with_ws (tok : t) : string := text tok +:+ whitespace_ tok.

#[global] Instance eq_dec : EqDecision t.
Proof. solve_decision. Defined.

#[global] Instance countable : Countable t :=
  inj_countable'
    (fun tok => (i tok, text tok, whitespace_ tok, ent_type_ tok,
                 like_num tok, like_email tok, like_url tok))
    (fun '(n, tx, ws, e, a, b, c) => mk n tx ws e a b c)
    (fun tok => match tok with mk _ _ _ _ _ _ _ => eq_refl end).

End Token.

Module Doc.

(** The token sequence and the extension attributes registered in
    [__init__]: [performed_spellCheck] (default [False]),
    [outcome_spellCheck] (default the empty string) and [score_spellCheck]
    (default [None]). *)
Record t : Type := mk {
  tokens : list Token.t;
  performed_spellCheck : bool;
  outcome_spellCheck : string;
  score_spellCheck : option (gmap Token.t (list (string * Q)))
}.

(** The document spaCy hands over, before any extension is written. *)
Definition fresh (toks : list Token.t) : t := mk toks false "" None.

Definition set_performed_spellCheck (v : bool) (d : t) : t :=
  mk (tokens d) v (outcome_spellCheck d) (score_spellCheck d).

Definition set_outcome_spellCheck (v : string) (d : t) : t :=
  mk (tokens d) (performed_spellCheck d) v (score_spellCheck d).

Definition set_score_spellCheck
    (v : option (gmap Token.t (list (string * Q)))) (d : t) : t :=
  mk (tokens d) (performed_spellCheck d) (outcome_spellCheck d) v.

(** [token.i] is the position of the token in its document. *)
Definition wf (d : t) : Prop :=
  Token.i <$> tokens d = seq 0 (length (tokens d)).

End Doc.

(** ** The checker object

    [vocab], [mask] and [debug] are the attributes set in [__init__].
    [BertTopK updatedQuery top_n] stands for the chain
    [BertTokenizer.encode], [BertModel], [softmax] at the mask position and
    [torch.topk]: the two lists [top_n_tokens] (vocabulary ids) and
    [top_n_score].  [decode] is [BertTokenizer.decode] on one id. *)
Record ContextualSpellCheck : Type := {
  vocab : gset string;
  mask : string;
  debug : bool;
  BertTopK : string → nat → list nat * list Q;
  decode : nat → string
}.

(** [round(x, 5)]: the nearest multiple of 1e-5, halves to even. *)
Definition round5 (x : Q) : Q :=
  let scaled := (x * (100000 # 1))%Q in
  let fl := (Qnum scaled / Z.pos (Qden scaled))%Z in
  let twice_rem := (2 * (Qnum scaled mod Z.pos (Qden scaled)))%Z in
  let den := Z.pos (Qden scaled) in
  let n :=
    if (twice_rem <? den)%Z then fl
    else if (den <? twice_rem)%Z then (fl + 1)%Z
    else if Z.even fl then fl else (fl + 1)%Z in
  (n # 100000)%Q.

(** ** Exceptions and the trace of collaborator calls *)

Inductive Exn : Type := KeyError | IndexError | TypeError.

Inductive Res (A : Type) : Type :=
  | Ok (a : A)
  | Raise (e : Exn).
Arguments Ok {A} a.
Arguments Raise {A} e.

Inductive Event : Type :=
  | SpacyParse (query : string)                    (* [spacy.load] and [nlp(query)] *)
  | Inference (updatedQuery : string) (top_n : nat) (* one masked-token prediction *).

Definition M (A : Type) : Type := list Event → Res A * list Event.

#[global] Instance M_ret : MRet M := fun A a tr => (Ok a, tr).

#[global] Instance M_bind : MBind M := fun A B f m tr =>
  match m tr with
  | (Ok a, tr') => f a tr'
  | (Raise e, tr') => (Raise e, tr')
  end.

Definition raise {A} (e : Exn) : M A := fun tr => (Raise e, tr).
Definition emit (ev : Event) : M unit := fun tr => (Ok tt, tr ++ [ev]).

(** [for x in xs: acc = body acc x], stopping at the first exception. *)
Fixpoint for_each {A B} (xs : list A) (acc : B) (body : B → A → M B) : M B :=
  match xs with
  | [] => mret acc
  | x :: xs' => acc' ← body acc x; for_each xs' acc' body
  end.

(** [d[k]] on a dict, [l[n]] on a list. *)
Definition getitem {A} (d : gmap Token.t A) (k : Token.t) : M A :=
  match d !! k with
  | Some v => mret v
  | None => raise KeyError
  end.

Definition index {A} (l : list A) (n : nat) : M A :=
  match l !! n with
  | Some v => mret v
  | None => raise IndexError
  end.

(** ** [misspellIdentify] *)

Definition is_misspell (self : ContextualSpellCheck) (token : Token.t) : bool :=
  negb (bool_decide (lower (Token.text token) ∈ vocab self))
  && negb (String.eqb (Token.ent_type_ token) "PERSON")
  && negb (Token.like_num token)
  && negb (Token.like_email token)
  && negb (Token.like_url token).

Definition misspellIdentify (self : ContextualSpellCheck) (doc : Doc.t)
    : list Token.t * Doc.t :=
  let misspell :=
    fold_left
      (fun misspell token =>
         if is_misspell self token then misspell ++ [token] else misspell)
      (Doc.tokens doc) [] in
  (misspell, doc).

(** ** [candidateGenerator] *)

(** The masked rendering built at the top of the loop body: the document
    with the text of the token at [token.i] replaced by the mask. *)
Definition maskedQuery (self : ContextualSpellCheck) (doc : Doc.t)
    (token : Token.t) : string :=
  fold_left
    (fun updatedQuery i =>
       if (Token.i i =? Token.i token)%nat
       then updatedQuery +:+ (mask self +:+ Token.whitespace_ i)
       else updatedQuery +:+ Token.text_with_ws i)
    (Doc.tokens doc) "".

(** One call of the tokenizer and the model on a masked rendering. *)
Definition predict (self : ContextualSpellCheck) (updatedQuery : string)
    (top_n : nat) : M (list nat * list Q) :=
  _ ← emit (Inference updatedQuery top_n);
  mret (BertTopK self updatedQuery top_n).

(** The comprehension building [score[token]]: it indexes both lists at
    every [i] of [range(top_n)]. *)
Definition score_entries (self : ContextualSpellCheck)
    (top_n_tokens : list nat) (top_n_score : list Q) (top_n : nat)
    : M (list (string * Q)) :=
  for_each (seq 0 top_n) []
    (fun entries i =>
       tok ← index top_n_tokens i;
       sc ← index top_n_score i;
       mret (entries ++ [(decode self tok, round5 sc)])).

(** The body of [for token in misspellings]. *)
Definition generate_token (self : ContextualSpellCheck) (doc : Doc.t)
    (top_n : nat)
    (acc : gmap Token.t (list string) * gmap Token.t (list (string * Q)))
    (token : Token.t)
    : M (gmap Token.t (list string) * gmap Token.t (list (string * Q))) :=
  let '(response, score) := acc in
  let updatedQuery := maskedQuery self doc token in
  '(top_n_tokens, top_n_score) ← predict self updatedQuery top_n;
  if bool_decide (response !! token = None) then
    entries ← score_entries self top_n_tokens top_n_score top_n;
    mret (<[token := decode self <$> top_n_tokens]> response,
          <[token := entries]> score)
  else mret (response, score).

Definition candidateGenerator (self : ContextualSpellCheck) (doc : Doc.t)
    (misspellings : list Token.t) (top_n : nat)
    : M (gmap Token.t (list string) * Doc.t) :=
  '(response, score) ←
    for_each misspellings (∅, ∅) (generate_token self doc top_n);
  let doc :=
    if negb (length misspellings =? 0)%nat
    then Doc.set_score_spellCheck (Some score)
           (Doc.set_performed_spellCheck true doc)
    else doc in
  mret (response, doc).

(** ** [candidateRanking] *)

(** The body of [for candidate in misspellingsDict[misspell]]; the state is
    [least_edit_dist] and [response]. *)
Definition rank_step (misspell : Token.t)
    (st : nat * gmap Token.t string) (candidate : string)
    : nat * gmap Token.t string :=
  let '(least_edit_dist, response) := st in
  let edit_dist := editdistance.eval (Token.text misspell) candidate in
  if (edit_dist <? least_edit_dist)%nat
  then (edit_dist, <[misspell := candidate]> response)
  else (least_edit_dist, response).

(** The body of [for misspell in misspellingsDict]. *)
Definition rank_token (misspell : Token.t) (candidates : list string)
    (response : gmap Token.t string) : gmap Token.t string :=
  let least_edit_dist := 100 in
  snd (fold_left (rank_step misspell) candidates (least_edit_dist, response)).

Definition candidateRanking (misspellingsDict : gmap Token.t (list string))
    : gmap Token.t string :=
  map_fold rank_token ∅ misspellingsDict.

(** ** [__call__] and [check] *)

(** The loop assembling [updatedQuery] in [__call__]: the test is on the
    token indices of [misspellTokens], the replacement is [answer[i]]. *)
Definition assemble_call (doc : Doc.t) (misspellTokens : list Token.t)
    (answer : gmap Token.t string) : M string :=
  for_each (Doc.tokens doc) ""
    (fun updatedQuery i =>
       if bool_decide (Token.i i ∈ Token.i <$> misspellTokens) then
         replacement ← getitem answer i;
         mret (updatedQuery +:+ (replacement +:+ Token.whitespace_ i))
       else mret (updatedQuery +:+ Token.text_with_ws i)).

Definition __call__ (self : ContextualSpellCheck) (doc : Doc.t) : M Doc.t :=
  let '(misspellTokens, doc) := misspellIdentify self doc in
  if (0 <? length misspellTokens)%nat then
    '(candidate, doc) ← candidateGenerator self doc misspellTokens 10;
    let answer := candidateRanking candidate in
    updatedQuery ← assemble_call doc misspellTokens answer;
    mret (Doc.set_outcome_spellCheck updatedQuery doc)
  else mret doc.

(** The values [check] may be passed as [query]. *)
Inductive PyVal : Type :=
  | PyNone
  | PyInt (z : Z)
  | PyStr (s : string)
  | PyList (items : list string).

Definition is_str (v : PyVal) : bool :=
  match v with PyStr _ => true | _ => false end.

(** [len(v)]; [None] and integers have no length. *)
Definition len (v : PyVal) : M nat :=
  match v with
  | PyStr s => mret (String.length s)
  | PyList l => mret (length l)
  | PyNone | PyInt _ => raise TypeError
  end.

(** [nlp(query)] for the pipeline loaded in [check]; spaCy rejects a
    query that is not a string. *)
Definition parse (nlp : string → list Token.t) (query : PyVal) : M Doc.t :=
  match query with
  | PyStr s => _ ← emit (SpacyParse s); mret (Doc.fresh (nlp s))
  | _ => raise TypeError
  end.

(** The two shapes of tuple [check] returns. *)
Inductive CheckResult : Type :=
  | InvalidQuery (message : string) (query : PyVal)
  | Checked (updatedQuery : string) (doc : Doc.t).

(** The loop assembling [updatedQuery] in [check]: the test is
    [i in misspellTokens]. *)
Definition assemble_check (doc : Doc.t) (misspellTokens : list Token.t)
    (answer : gmap Token.t string) : M string :=
  for_each (Doc.tokens doc) ""
    (fun updatedQuery i =>
       if bool_decide (i ∈ misspellTokens) then
         replacement ← getitem answer i;
         mret (updatedQuery +:+ (replacement +:+ Token.whitespace_ i))
       else mret (updatedQuery +:+ Token.text_with_ws i)).

Definition check (nlp : string → list Token.t) (self : ContextualSpellCheck)
    (query : PyVal) : M CheckResult :=
  (* [type(query) != str and len(query) == 0], with the short circuit *)
  invalid ←
    (if negb (is_str query) then n ← len query; mret (n =? 0)%nat
     else mret false);
  if (invalid : bool) then
    mret (InvalidQuery
            "Invalid query, expected non empty `str` but passed" query)
  else
    doc ← parse nlp query;
    let '(misspellTokens, doc) := misspellIdentify self doc in
    if (0 <? length misspellTokens)%nat then
      '(candidate, doc) ← candidateGenerator self doc misspellTokens 10;
      let answer := candidateRanking candidate in
      updatedQuery ← assemble_check doc misspellTokens answer;
      mret (Checked updatedQuery
              (Doc.set_outcome_spellCheck updatedQuery doc))
    else mret (Checked "" doc).

(** ** [doc_suggestions_spellCheck] *)

(** The body of [for token in doc._.score_spellCheck]. *)
Definition suggestions_token (token : Token.t)
    (suggestion_scores : list (string * Q))
    (response : gmap Token.t (list string)) : gmap Token.t (list string) :=
  let response :=
    if bool_decide (response !! token = None)
    then <[token := []]> response else response in
  fold_left
    (fun response suggestion_score =>
       alter (fun l => l ++ [suggestion_score.1]) token response)
    suggestion_scores response.

Definition doc_suggestions_spellCheck (doc : Doc.t)
    : gmap Token.t (list string) :=
  match Doc.score_spellCheck doc with
  | None => ∅
  | Some score => map_fold suggestions_token ∅ score
  end.

(** ** The token and span getters

    A token and a span reach their document through [token.doc]; here the
    document is an argument.  A span is the list of its tokens.  The keys of
    a dict are visited in the order of [map_to_list]. *)

(** The loop shared by [token_suggestion_spellCheck] and
    [token_score_spellCheck]: at the first key with the index of [token] it
    returns [d[token]]; [[]] when no key has that index. *)
Fixpoint return_at_index {A} (keys : list Token.t) (d : gmap Token.t (list A))
    (token : Token.t) : M (list A) :=
  match keys with
  | [] => mret []
  | suggestion :: keys' =>
      if (Token.i token =? Token.i suggestion)%nat
      then getitem d token
      else return_at_index keys' d token
  end.

Definition token_require_spellCheck (doc : Doc.t) (token : Token.t) : bool :=
  existsb (fun b => b)
    ((fun suggestion => (Token.i token =? Token.i suggestion)%nat)
       <$> (map_to_list (doc_suggestions_spellCheck doc)).*1).

Definition token_suggestion_spellCheck (doc : Doc.t) (token : Token.t)
    : M (list string) :=
  return_at_index (map_to_list (doc_suggestions_spellCheck doc)).*1
    (doc_suggestions_spellCheck doc) token.

Definition token_score_spellCheck (doc : Doc.t) (token : Token.t)
    : M (list (string * Q)) :=
  match Doc.score_spellCheck doc with
  | None => mret []
  | Some score => return_at_index (map_to_list score).*1 score token
  end.

(** [[{token: self.token_score_spellCheck(token)} for token in span]] *)
Definition span_score_spellCheck (doc : Doc.t) (span : list Token.t)
    : M (list (gmap Token.t (list (string * Q)))) :=
  for_each span []
    (fun entries token =>
       scores ← token_score_spellCheck doc token;
       mret (entries ++ [{[ token := scores ]}])).

Definition span_require_spellCheck (doc : Doc.t) (span : list Token.t) : bool :=
  existsb (fun b => b) (token_require_spellCheck doc <$> span).

(** ** Vocabulary of the statements

    The definitions below are not part of the program: they name what the
    theorems say about it. *)

(** Concatenation of a list of strings, left to right. *)
Definition join (l : list string) : string := foldr String.app "" l.

(** [startswith s m]: [m] is a prefix of [s]. *)
Fixpoint startswith (s m : string) : bool :=
  match m, s with
  | EmptyString, _ => true
  | String a m', String b s' => Ascii.eqb a b && startswith s' m'
  | String _ _, EmptyString => false
  end.

(** The number of positions of [s] at which an occurrence of [m] starts. *)
Fixpoint occurrences (m s : string) : nat :=
  (if startswith s m then 1 else 0) +
  match s with
  | EmptyString => 0
  | String _ s' => occurrences m s'
  end.

(** The proper suffixes of a string, longest first, the empty one last. *)
Fixpoint proper_suffixes (s : string) : list string :=
  match s with
  | EmptyString => []
  | String _ s' => s' :: proper_suffixes s'
  end.

(** A non-empty string no proper non-empty suffix of which is also a prefix
    of it: two occurrences of such a string cannot overlap. *)
Definition unbordered (m : string) : bool :=
  negb (String.eqb m "")
  && forallb (fun u => String.eqb u "" || negb (startswith m u))
       (proper_suffixes m).

(** Lower-casing as the specification words it, read off the alphabet
    instead of the arithmetic of [lower]: the capitals among the code points
    below 256 and, in the same order, their small letters.  The letters
    outside ASCII, [À]-[Ö] and [Ø]-[Þ] with [à]-[ö] and [ø]-[þ], are written
    by their code points. *)
Definition capitals : list ascii :=
  String.list_ascii_of_string "ABCDEFGHIJKLMNOPQRSTUVWXYZ" ++
  [
   "192"; "193"; "194"; "195"; "196"; "197"; "198"; "199"; "200"; "201";
   "202"; "203"; "204"; "205"; "206"; "207"; "208"; "209"; "210"; "211";
   "212"; "213"; "214"; "216"; "217"; "218"; "219"; "220"; "221"; "222"
  ]%char.

Definition smalls : list ascii :=
  String.list_ascii_of_string "abcdefghijklmnopqrstuvwxyz" ++
  [
   "224"; "225"; "226"; "227"; "228"; "229"; "230"; "231"; "232"; "233";
   "234"; "235"; "236"; "237"; "238"; "239"; "240"; "241"; "242"; "243";
   "244"; "245"; "246"; "248"; "249"; "250"; "251"; "252"; "253"; "254"
  ]%char.

Definition small_letters : list (ascii * ascii) := zip capitals smalls.

Definition small_letter (c : ascii) : ascii :=
  match List.find (fun p => Ascii.eqb p.1 c) small_letters with
  | Some p => p.2
  | None => c
  end.

Fixpoint lowercased (s : string) : string :=
  match s with
  | EmptyString => EmptyString
  | String c s' => String (small_letter c) (lowercased s')
  end.

(** The condition of [misspellIdentify], read off the specification. *)
Definition Misspelled (self : ContextualSpellCheck) (token : Token.t) : Prop :=
  (lower (Token.text token) ∉ vocab self)
  ∧ Token.ent_type_ token ≠ "PERSON"
  ∧ Token.like_num token = false
  ∧ Token.like_email token = false
  ∧ Token.like_url token = false.

#[global] Instance Misspelled_dec self token : Decision (Misspelled self token).
Proof. unfold Misspelled. apply _. Defined.

(** [torch.topk(_, top_n)] returns [top_n] indices and [top_n] values. *)
Definition topk_contract (self : ContextualSpellCheck) (top_n : nat) : Prop :=
  ∀ updatedQuery,
    length (BertTopK self updatedQuery top_n).1 = top_n
    ∧ length (BertTopK self updatedQuery top_n).2 = top_n.

(** The two entries [candidateGenerator] computes for one token. *)
Definition token_candidates (self : ContextualSpellCheck) (doc : Doc.t)
    (top_n : nat) (token : Token.t) : list string :=
  decode self <$> (BertTopK self (maskedQuery self doc token) top_n).1.

Definition token_scores (self : ContextualSpellCheck) (doc : Doc.t)
    (top_n : nat) (token : Token.t) : list (string * Q) :=
  let top := BertTopK self (maskedQuery self doc token) top_n in
  zip_with (fun id sc => (decode self id, round5 sc)) top.1 top.2.

(** The dict a loop over [misspellings] fills with [entry token], keeping
    the entry made at the first occurrence of a token. *)
Definition collect {A} (entry : Token.t → A) (misspellings : list Token.t)
    : gmap Token.t A :=
  fold_left
    (fun d token =>
       if bool_decide (d !! token = None) then <[token := entry token]> d else d)
    misspellings ∅.

(** What one iteration of [for token in misspellings] does to the two
    dicts when the model call succeeds. *)
Definition record_token (self : ContextualSpellCheck) (doc : Doc.t)
    (top_n : nat)
    (acc : gmap Token.t (list string) * gmap Token.t (list (string * Q)))
    (token : Token.t)
    : gmap Token.t (list string) * gmap Token.t (list (string * Q)) :=
  if bool_decide (acc.1 !! token = None)
  then (<[token := token_candidates self doc top_n token]> acc.1,
        <[token := token_scores self doc top_n token]> acc.2)
  else acc.

(** What the token [i] contributes to the masked rendering for [token]. *)
Definition masked_piece (self : ContextualSpellCheck) (token i : Token.t)
    : string :=
  if (Token.i i =? Token.i token)%nat
  then mask self +:+ Token.whitespace_ i
  else Token.text_with_ws i.

(** The candidate the inner loop of [candidateRanking] ends on when it is
    started with [least_edit_dist = bound]: [None] when no candidate is
    closer to [text] than [bound]. *)
Fixpoint first_closest (text : string) (bound : nat) (candidates : list string)
    : option string :=
  match candidates with
  | [] => None
  | c :: cs =>
      let d := editdistance.eval text c in
      if (d <? bound)%nat
      then Some (default c (first_closest text d cs))
      else first_closest text bound cs
  end.

(** What a token contributes to the corrected text when [answer] is the
    ranking result: its replacement if it has one, else its own text, and
    its trailing whitespace in both cases. *)
Definition corrected_piece (answer : gmap Token.t string) (token : Token.t)
    : string :=
  match answer !! token with
  | Some replacement => replacement +:+ Token.whitespace_ token
  | None => Token.text_with_ws token
  end.

(** A list of (candidate, score) pairs with the scores dropped. *)
Definition strings_of (l : list (string * Q)) : list string := l.*1.

(** ** A concrete checker and concrete documents *)

Module Example.

Definition tk (n : nat) (tx ws : string) : Token.t :=
  Token.mk n tx ws "" false false false.

(** The ten strings the stub model proposes, most probable first. *)
Definition words : list string :=
  ["million"; "millions"; "billion"; "thousand"; "dollars"; "percent";
   "the"; "of"; "year"; "prior"].

Definition checker : ContextualSpellCheck := {|
  vocab := list_to_set
    ["income"; "was"; "million"; "compared"; "to"; "the"; "prior"; "year";
     "of"; "."; "["; "mask"; "]"];
  mask := "[MASK]";
  debug := false;
  BertTopK := fun _ top_n =>
    (seq 0 top_n, (fun k => (1 # Pos.of_nat (k + 2))%Q) <$> seq 0 top_n);
  decode := fun id => default "" (words !! id)
|}.

(** "Income was milion compared to the prior year of milion." *)
Definition income : Doc.t :=
  Doc.fresh
    [tk 0 "Income" " "; tk 1 "was" " "; tk 2 "milion" " ";
     tk 3 "compared" " "; tk 4 "to" " "; tk 5 "the" " "; tk 6 "prior" " ";
     tk 7 "year" " "; tk 8 "of" " "; tk 9 "milion" ""; tk 10 "." ""].

(** "Income was million." has no out-of-vocabulary token. *)
Definition clean : Doc.t :=
  Doc.fresh [tk 0 "Income" " "; tk 1 "was" " "; tk 2 "million" ""; tk 3 "." ""].

(** A token of 120 characters: every proposal of the stub model is at edit
    distance 100 or more from it. *)
Definition long_word : string :=
  join (replicate 12 "loremipsum").

Definition long_token : Token.t := tk 2 long_word "".

Definition long_doc : Doc.t :=
  Doc.fresh [tk 0 "Income" " "; tk 1 "was" " "; long_token].

(** "[MASK] milion": the text of the document already spells the mask. *)
Definition bracket_doc : Doc.t :=
  Doc.fresh [tk 0 "[" ""; tk 1 "MASK" ""; tk 2 "]" " "; tk 3 "milion" ""].

(** A stub for the spaCy pipeline: one token per whitespace-separated word. *)
Definition stub_nlp (query : string) : list Token.t :=
  imap (fun k word => tk k word " ") (String.words query).

End Example.

(** ** Further vocabulary of the statements *)

(** The checker with another vocabulary, and with another mask. *)
Definition with_vocab (v : gset string) (self : ContextualSpellCheck)
    : ContextualSpellCheck :=
  {| vocab := v; mask := mask self; debug := debug self;
     BertTopK := BertTopK self; decode := decode self |}.

Definition with_mask (m : string) (self : ContextualSpellCheck)
    : ContextualSpellCheck :=
  {| vocab := vocab self; mask := m; debug := debug self;
     BertTopK := BertTopK self; decode := decode self |}.

(** The source text of a document. *)
Definition doc_text (doc : Doc.t) : string :=
  join (Token.text_with_ws <$> Doc.tokens doc).

(** A document as the pipeline leaves it: its token indices are its
    positions and the keys of its score map, if set, are tokens of it. *)
Definition annotated (doc : Doc.t) : Prop :=
  Doc.wf doc
  ∧ ∀ score token,
      Doc.score_spellCheck doc = Some score →
      is_Some (score !! token) → token ∈ Doc.tokens doc.

(** The score list of a token, empty when it has none. *)
Definition scores_of (doc : Doc.t) (token : Token.t) : list (string * Q) :=
  default [] (Doc.score_spellCheck doc ≫= fun score => score !! token).

(** A result with a function applied to its value. *)
Definition Res_map {A B} (f : A → B) (r : Res A) : Res B :=
  match r with
  | Ok a => Ok (f a)
  | Raise e => Raise e
  end.

(** The replacement [__call__] gives a token: the first closest of the
    candidates proposed for it, if it is misspelled and has one. *)
Definition replacement_of (self : ContextualSpellCheck) (doc : Doc.t)
    (token : Token.t) : option string :=
  if decide (Misspelled self token)
  then first_closest (Token.text token) 100 (token_candidates self doc 10 token)
  else None.

(** [v] is a possible edit distance between a string of [n] characters and
    one of [j]: at least the difference of the lengths, at most the larger. *)
Definition between_lengths (n j v : nat) : Prop :=
  n ≤ v + j ∧ j ≤ v + n ∧ v ≤ n `max` j.

(** The two misspelled tokens of [Example.income], and its annotation. *)
Definition milion2 : Token.t := Example.tk 2 "milion" " ".
Definition milion9 : Token.t := Example.tk 9 "milion" "".

Definition income_scores : gmap Token.t (list (string * Q)) :=
  collect (token_scores Example.checker Example.income 10) [milion2; milion9].

Definition income_annotated : Doc.t :=
  Doc.set_score_spellCheck (Some income_scores)
    (Doc.set_performed_spellCheck true Example.income).

(** What [__call__] returns on [Example.income], and the calls it makes. *)
Definition income_corrected : Doc.t :=
  Doc.set_outcome_spellCheck
    "Income was million compared to the prior year of million."
    income_annotated.

Definition income_calls : list Event :=
  [Inference "Income was [MASK] compared to the prior year of milion." 10;
   Inference "Income was milion compared to the prior year of [MASK]." 10].

(** "École Income Hitesh 9.4 a@b.co b.co milion": a word with a capital
    outside ASCII ([É] is code point 201, [é] is 233), a capitalised
    vocabulary word, a person, a number, an address, a link and one
    misspelled word.  [cased_checker] knows "école" besides the words of
    [Example.checker]. *)
Definition ecole : string := String "201" "cole".
Definition ecole_small : string := String "233" "cole".

Definition cased_checker : ContextualSpellCheck :=
  with_vocab ({[ ecole_small ]} ∪ vocab Example.checker) Example.checker.

Definition cased_doc : Doc.t :=
  Doc.fresh
    [Example.tk 0 ecole " "; Example.tk 1 "Income" " ";
     Token.mk 2 "Hitesh" " " "PERSON" false false false;
     Token.mk 3 "9.4" " " "" true false false;
     Token.mk 4 "a@b.co" " " "" false true false;
     Token.mk 5 "b.co" " " "" false false true;
     Example.tk 6 "milion" ""].

(** * Properties *)

(** ** The monad *)

Section monad.
Context {A B : Type}.
Implicit Types (m : M A) (f : A → M B) (tr : list Event).

Lemma bind_Ok m f tr a tr' :
  m tr = (Ok a, tr') → (m ≫= f) tr = f a tr'.
Proof. unfold mbind, M_bind. by intros ->. Qed.

Lemma bind_inv_Ok m f tr b tr' :
  (m ≫= f) tr = (Ok b, tr') →
  ∃ a tr1, m tr = (Ok a, tr1) ∧ f a tr1 = (Ok b, tr').
Proof.
  unfold mbind, M_bind. destruct (m tr) as [[a|e] tr1]; [|done].
  intros H. by exists a, tr1.
Qed.

Lemma mret_inv_Ok (a a' : A) tr tr' :
  mret (M:=M) a tr = (Ok a', tr') → a = a' ∧ tr = tr'.
Proof. by intros [= -> ->]. Qed.
End monad.

(** ** Strings: concatenation, prefixes, occurrences *)

Section strings.
Implicit Types (s t u m q x rest : string) (a b : ascii).

Lemma sapp_nil_l s : "" +:+ s = s.
Proof. done. Qed.

Lemma sapp_cons a s t : String a s +:+ t = String a (s +:+ t).
Proof. done. Qed.

Lemma sapp_nil_r s : s +:+ "" = s.
Proof. induction s as [|a s IH]; [done|]. by rewrite sapp_cons, IH. Qed.

Lemma sapp_assoc s t u : (s +:+ t) +:+ u = s +:+ (t +:+ u).
Proof. induction s as [|a s IH]; [done|]. by rewrite !sapp_cons, IH. Qed.

Lemma slength_app s t :
  String.length (s +:+ t) = String.length s + String.length t.
Proof.
  induction s as [|a s IH]; [done|]. rewrite sapp_cons. cbn. by rewrite IH.
Qed.

Lemma join_app (l1 l2 : list string) : join (l1 ++ l2) = join l1 +:+ join l2.
Proof.
  induction l1 as [|s l1 IH]; [done|]. cbn. fold (join (l1 ++ l2)) (join l1).
  by rewrite IH, sapp_assoc.
Qed.

Lemma fold_left_join {E} (f : E → string) (l : list E) : ∀ acc,
  fold_left (fun acc y => acc +:+ f y) l acc = acc +:+ join (f <$> l).
Proof.
  induction l as [|y l IH]; intros acc; cbn [fold_left].
  - by rewrite sapp_nil_r.
  - rewrite IH, fmap_cons. cbn. fold (join (f <$> l)). by rewrite sapp_assoc.
Qed.

Lemma startswith_nil s : startswith s "" = true.
Proof. by destruct s. Qed.

Lemma startswith_app s t : startswith (s +:+ t) s = true.
Proof.
  induction s as [|a s IH]; [apply startswith_nil|].
  rewrite sapp_cons. cbn. by rewrite Ascii.eqb_refl, IH.
Qed.

Lemma startswith_length s m :
  startswith s m = true → String.length m ≤ String.length s.
Proof.
  revert s. induction m as [|a m IH]; intros [|b s]; cbn; try done; [lia|].
  intros [_ H]%andb_true_iff. apply IH in H. lia.
Qed.

Lemma startswith_app_l s m x :
  startswith s m = true → startswith (s +:+ x) m = true.
Proof.
  revert s. induction m as [|a m IH]; intros [|b s]; cbn; try done.
  - intros _. apply startswith_nil.
  - rewrite sapp_cons. cbn. intros [-> H]%andb_true_iff. by apply IH.
Qed.

(** A prefix of [q +:+ x] either lies within [q] or covers [q]. *)
Lemma startswith_app_inv q x m :
  startswith (q +:+ x) m = true →
  startswith q m = true ∨ ∃ u, m = q +:+ u ∧ startswith x u = true.
Proof.
  revert m. induction q as [|b q IH]; intros m.
  - rewrite sapp_nil_l. intros H. right. by exists m.
  - destruct m as [|a m]; [by left|].
    rewrite sapp_cons. cbn. intros [Hab H]%andb_true_iff.
    apply Ascii.eqb_eq in Hab as ->.
    destruct (IH _ H) as [Hq|(u & -> & Hu)].
    + left. by rewrite Ascii.eqb_refl.
    + right. by exists u.
Qed.

Lemma startswith_app_short s x u :
  startswith (s +:+ x) u = true → String.length u ≤ String.length s →
  startswith s u = true.
Proof.
  intros [H|(v & -> & Hv)]%startswith_app_inv; [done|].
  rewrite slength_app. intros Hlen.
  destruct v; [|cbn in Hlen; lia].
  rewrite sapp_nil_r. clear. induction s as [|a s IH]; [done|].
  cbn. by rewrite Ascii.eqb_refl.
Qed.

Lemma proper_suffixes_app q u :
  q ≠ "" → u ∈ proper_suffixes (q +:+ u).
Proof.
  induction q as [|a q IH]; [done|]. intros _. rewrite sapp_cons. cbn.
  destruct q as [|b q]; [left|right; by apply IH].
Qed.

Lemma unbordered_no_border m q u :
  unbordered m = true → m = q +:+ u → q ≠ "" → u ≠ "" →
  startswith m u = false.
Proof.
  unfold unbordered. intros [_ Hall]%andb_true_iff -> Hq Hu.
  rewrite forallb_forall in Hall.
  specialize (Hall u). rewrite <- list_elem_of_In in Hall.
  specialize (Hall (proper_suffixes_app q u Hq)).
  apply orb_true_iff in Hall as [H|H].
  - by apply String.eqb_eq in H.
  - by apply negb_true_iff in H.
Qed.

Lemma unbordered_nonempty m : unbordered m = true → m ≠ "".
Proof.
  unfold unbordered. intros [H _]%andb_true_iff.
  apply negb_true_iff in H. by apply String.eqb_neq in H.
Qed.

Lemma occurrences_cons m a s :
  occurrences m (String a s)
  = (if startswith (String a s) m then 1 else 0) + occurrences m s.
Proof. done. Qed.

(** No occurrence of an unbordered [m] starts inside a proper suffix of an
    occurrence of [m]. *)
Lemma occurrences_suffix m rest u : ∀ q,
  unbordered m = true → m = q +:+ u → q ≠ "" →
  occurrences m (u +:+ rest) = occurrences m rest.
Proof.
  induction u as [|a u IH]; intros q Hm Hq Hne; [done|].
  rewrite sapp_cons, occurrences_cons, <- sapp_cons.
  rewrite (IH (q +:+ String a "")); [|done|by rewrite sapp_assoc|by destruct q].
  destruct (startswith (String a u +:+ rest) m) eqn:Hs; [|done].
  exfalso. apply startswith_app_inv in Hs as [Hs|(v & Hv & _)].
  - apply startswith_length in Hs. rewrite Hq, slength_app in Hs.
    destruct q; [done|cbn in Hs; lia].
  - assert (startswith m (String a u) = true) as Hb.
    { rewrite Hv. apply startswith_app. }
    by rewrite (unbordered_no_border m q (String a u)) in Hb.
Qed.

Lemma occurrences_here m rest :
  unbordered m = true →
  occurrences m (m +:+ rest) = 1 + occurrences m rest.
Proof.
  intros Hm. destruct m as [|a m']; [done|].
  rewrite sapp_cons, occurrences_cons, <- sapp_cons, startswith_app.
  by rewrite (occurrences_suffix _ rest m' (String a "")).
Qed.

(** The occurrences of an unbordered [m] in [pre +:+ m +:+ rest] are the
    inserted one, those of [pre] and those of [rest]. *)
Lemma occurrences_insert m pre rest :
  unbordered m = true →
  occurrences m (pre +:+ (m +:+ rest))
  = occurrences m pre + 1 + occurrences m rest.
Proof.
  intros Hm. induction pre as [|a pre IH].
  - rewrite sapp_nil_l, occurrences_here by done. cbn.
    destruct m; [by apply unbordered_nonempty in Hm|done].
  - rewrite sapp_cons, !occurrences_cons, IH, <- sapp_cons.
    assert (startswith (String a pre +:+ (m +:+ rest)) m
            = startswith (String a pre) m) as ->; [|lia].
    destruct (startswith (String a pre) m) eqn:Hq.
    { by apply startswith_app_l. }
    destruct (startswith (_ +:+ _) m) eqn:Hs; [|done].
    exfalso.
    apply startswith_app_inv in Hs as [Hs|(u & Hu & Hs)]; [congruence|].
    destruct u as [|b u].
    { rewrite sapp_nil_r in Hu. rewrite Hu in Hq.
      pose proof (startswith_app (String a pre) "") as H.
      rewrite sapp_nil_r in H. congruence. }
    assert (startswith m (String b u) = true) as Hb.
    { apply (startswith_app_short m rest); [done|].
      rewrite Hu, slength_app. lia. }
    by rewrite (unbordered_no_border m (String a pre) (String b u)) in Hb.
Qed.
End strings.

(** ** Documents whose token indices are their positions *)

Section wf.
Context (doc : Doc.t) (Hwf : Doc.wf doc).
Implicit Types (token : Token.t).

Lemma wf_lookup k token :
  Doc.tokens doc !! k = Some token → Token.i token = k.
Proof.
  intros Hk.
  assert ((Token.i <$> Doc.tokens doc) !! k = Some (Token.i token)) as H.
  { by rewrite list_lookup_fmap, Hk. }
  rewrite Hwf in H. apply lookup_seq in H. lia.
Qed.

Lemma wf_lookup_i token :
  token ∈ Doc.tokens doc → Doc.tokens doc !! Token.i token = Some token.
Proof.
  intros [k Hk]%list_elem_of_lookup. by rewrite (wf_lookup k token Hk).
Qed.

Lemma wf_index_inj token token' :
  token ∈ Doc.tokens doc → token' ∈ Doc.tokens doc →
  Token.i token = Token.i token' → token = token'.
Proof.
  intros H%wf_lookup_i H'%wf_lookup_i Hi. rewrite Hi in H. congruence.
Qed.

(** On the tokens of the document, the test on indices of [__call__] is the
    membership test of [check]. *)
Lemma wf_index_elem token (misspellTokens : list Token.t) :
  (∀ t, t ∈ misspellTokens → t ∈ Doc.tokens doc) →
  token ∈ Doc.tokens doc →
  Token.i token ∈ Token.i <$> misspellTokens ↔ token ∈ misspellTokens.
Proof.
  intros Hsub Hin. rewrite list_elem_of_fmap. split.
  - intros (t & Hi & Ht). by rewrite (wf_index_inj token t) by auto.
  - intros Ht. by exists token.
Qed.
End wf.

(** ** Lower-casing *)

Section lowercase.

Lemma lower_char_small_letter c : lower_char c = small_letter c.
Proof. by destruct c as [[] [] [] [] [] [] [] []]. Qed.

Lemma lower_lowercased s : lower s = lowercased s.
Proof.
  induction s as [|c s IH]; [done|]. cbn [lower lowercased].
  by rewrite lower_char_small_letter, IH.
Qed.

End lowercase.

(** ** [misspellIdentify] and the short circuit of [__call__] *)

Section identify.
Context (self : ContextualSpellCheck).
Implicit Types (token : Token.t) (doc : Doc.t).

Lemma is_misspell_Misspelled token :
  is_misspell self token = true ↔ Misspelled self token.
Proof.
  unfold is_misspell, Misspelled.
  rewrite !andb_true_iff, !negb_true_iff, bool_decide_eq_false.
  rewrite String.eqb_neq. tauto.
Qed.

Lemma fold_append_filter (l : list Token.t) : ∀ acc,
  fold_left
    (fun misspell token =>
       if is_misspell self token then misspell ++ [token] else misspell) l acc
  = acc ++ filter (Misspelled self) l.
Proof.
  induction l as [|token l IH]; intros acc; cbn [fold_left].
  - by rewrite filter_nil, app_nil_r.
  - rewrite IH, filter_cons.
    destruct (is_misspell self token) eqn:E.
    + apply is_misspell_Misspelled in E. rewrite decide_True by done.
      by rewrite <- app_assoc.
    + rewrite decide_False; [done|].
      intros H%is_misspell_Misspelled. congruence.
Qed.

Lemma misspellIdentify_filter doc :
  misspellIdentify self doc = (filter (Misspelled self) (Doc.tokens doc), doc).
Proof. unfold misspellIdentify. by rewrite fold_append_filter. Qed.

Lemma misspellIdentify_reads (self' : ContextualSpellCheck) doc doc' :
  vocab self' = vocab self → Doc.tokens doc' = Doc.tokens doc →
  (misspellIdentify self' doc').1 = (misspellIdentify self doc).1.
Proof.
  intros Hv Ht. unfold misspellIdentify. cbn [fst]. rewrite Ht.
  assert (∀ l acc,
    fold_left (fun misspell token =>
      if is_misspell self' token then misspell ++ [token] else misspell) l acc
    = fold_left (fun misspell token =>
        if is_misspell self token then misspell ++ [token] else misspell) l acc)
    as Hfold; [|apply Hfold].
  induction l as [|token l IH]; intros acc; [done|].
  cbn [fold_left]. rewrite IH. unfold is_misspell. by rewrite Hv.
Qed.

(** C2.  [misspellIdentify] returns exactly the tokens of the document
    whose lower-cased text is absent from the vocabulary, whose entity label
    is not "PERSON" and which are neither number-like, email-like nor
    URL-like.  The lower-casing of the code is the one of the table of
    letters, [lowercased]; the result is the document's token list filtered
    by the condition, hence a subsequence of it in document order; a token
    is in the result if and only if it is a token of the document meeting
    the condition, worded with [lowercased]; the result depends on nothing
    but the tokens of the document and the vocabulary; and the document
    comes back unchanged. *)
Theorem misspellIdentify_spec doc :
  (∀ s, lower s = lowercased s)
  ∧ (misspellIdentify self doc).1 = filter (Misspelled self) (Doc.tokens doc)
  ∧ (misspellIdentify self doc).1 `sublist_of` Doc.tokens doc
  ∧ (∀ token,
       token ∈ (misspellIdentify self doc).1 ↔
       token ∈ Doc.tokens doc
       ∧ (lowercased (Token.text token) ∉ vocab self)
       ∧ Token.ent_type_ token ≠ "PERSON"
       ∧ Token.like_num token = false
       ∧ Token.like_email token = false
       ∧ Token.like_url token = false)
  ∧ (∀ self' doc',
       vocab self' = vocab self → Doc.tokens doc' = Doc.tokens doc →
       (misspellIdentify self' doc').1 = (misspellIdentify self doc).1)
  ∧ (misspellIdentify self doc).2 = doc.
Proof.
  split; [apply lower_lowercased|].
  split; [by rewrite misspellIdentify_filter|].
  split; [rewrite misspellIdentify_filter; apply sublist_filter|].
  split; [|split; [intros self' doc'; apply misspellIdentify_reads|
                   by rewrite misspellIdentify_filter]].
  intros token. rewrite misspellIdentify_filter. cbn [fst].
  rewrite list_elem_of_filter. unfold Misspelled.
  rewrite lower_lowercased. tauto.
Qed.

(** C6.  When [misspellIdentify] finds no misspelled token, [__call__]
    returns the document it was given and leaves the trace of collaborator
    calls as it was: no inference call is made, and the outcome and the
    "performed" flag of the document keep the values they had. *)
Theorem call_short_circuit doc tr :
  (misspellIdentify self doc).1 = [] → __call__ self doc tr = (Ok doc, tr).
Proof.
  unfold __call__. rewrite misspellIdentify_filter. cbn [fst].
  by intros ->.
Qed.
End identify.

(** On [cased_doc], "École" and "Income" are found in the vocabulary once
    lower-cased, the person, the number, the address and the link are set
    aside, and "milion" alone comes back. *)
Lemma misspellIdentify_spec_witness :
  lower ecole = ecole_small
  ∧ (misspellIdentify cased_checker cased_doc).1 = [Example.tk 6 "milion" ""]
  ∧ (Example.tk 1 "Income" " " ∉ (misspellIdentify cased_checker cased_doc).1)
  ∧ (misspellIdentify cased_checker cased_doc).2 = cased_doc.
Proof.
  destruct (misspellIdentify_spec cased_checker cased_doc)
    as (Hlow & Hfilter & _ & Hiff & _ & Hdoc).
  split; [rewrite Hlow; by vm_compute|].
  split; [rewrite Hfilter; by vm_compute|].
  split; [|exact Hdoc].
  rewrite Hiff. intros (_ & Hvocab & _). apply Hvocab.
  apply (bool_decide_unpack _). by vm_compute.
Defined.

Lemma call_short_circuit_witness :
  (misspellIdentify Example.checker Example.clean).1 = []
  ∧ __call__ Example.checker Example.clean [] = (Ok Example.clean, []).
Proof.
  split; [vm_compute; reflexivity|].
  apply (call_short_circuit Example.checker Example.clean []).
  vm_compute; reflexivity.
Defined.

(** ** [candidateRanking] *)

Section ranking.
Implicit Types (misspell token : Token.t) (response : gmap Token.t string).
Implicit Types (candidates pre post : list string) (c r text : string).

Lemma fold_rank_step misspell candidates : ∀ bound response,
  fold_left (rank_step misspell) candidates (bound, response) =
    match first_closest (Token.text misspell) bound candidates with
    | Some r =>
        (editdistance.eval (Token.text misspell) r, <[misspell := r]> response)
    | None => (bound, response)
    end.
Proof.
  induction candidates as [|c cs IH]; intros bound response; [done|].
  cbn [fold_left first_closest rank_step].
  destruct (Nat.ltb_spec (editdistance.eval (Token.text misspell) c) bound);
    rewrite IH; [|done].
  destruct (first_closest _ _ cs) as [r|]; cbn [default]; [|done].
  by rewrite insert_insert_eq.
Qed.

Lemma rank_token_first_closest misspell candidates response :
  rank_token misspell candidates response =
    match first_closest (Token.text misspell) 100 candidates with
    | Some r => <[misspell := r]> response
    | None => response
    end.
Proof.
  unfold rank_token. rewrite fold_rank_step.
  by destruct (first_closest _ _ _).
Qed.

(** The entry of a token in the result depends on its own candidates only. *)
Lemma candidateRanking_lookup
    (misspellingsDict : gmap Token.t (list string)) token :
  candidateRanking misspellingsDict !! token =
    misspellingsDict !! token ≫= first_closest (Token.text token) 100.
Proof.
  unfold candidateRanking. revert token.
  apply (map_fold_weak_ind
    (fun response (m : gmap Token.t (list string)) =>
       ∀ k, response !! k = m !! k ≫= first_closest (Token.text k) 100)).
  - intros k. by rewrite !lookup_empty.
  - intros k cands m response Hfresh IH k'.
    rewrite rank_token_first_closest.
    destruct (decide (k = k')) as [->|Hne].
    + rewrite lookup_insert_eq. cbn.
      destruct (first_closest _ _ cands) as [r|].
      * by rewrite lookup_insert_eq.
      * by rewrite IH, Hfresh.
    + rewrite (lookup_insert_ne m) by done. rewrite <- IH.
      destruct (first_closest _ _ cands); [by rewrite lookup_insert_ne|done].
Qed.

Lemma first_closest_None text candidates : ∀ bound,
  first_closest text bound candidates = None →
  ∀ c, c ∈ candidates → bound ≤ editdistance.eval text c.
Proof.
  induction candidates as [|c cs IH]; intros bound;
    [by intros _ ? ?%elem_of_nil|].
  cbn [first_closest].
  destruct (Nat.ltb_spec (editdistance.eval text c) bound); [done|].
  intros Hcs c' [->|Hin]%elem_of_cons; [done|by eapply IH].
Qed.

(** What [first_closest] returns is below the bound, strictly closer than
    every candidate before it and at least as close as every one after. *)
Lemma first_closest_Some text candidates : ∀ bound r,
  first_closest text bound candidates = Some r →
  editdistance.eval text r < bound
  ∧ ∃ pre post, candidates = pre ++ r :: post
    ∧ (∀ c, c ∈ pre → editdistance.eval text r < editdistance.eval text c)
    ∧ (∀ c, c ∈ post → editdistance.eval text r ≤ editdistance.eval text c).
Proof.
  induction candidates as [|c cs IH]; intros bound r; [done|].
  cbn [first_closest].
  destruct (Nat.ltb_spec (editdistance.eval text c) bound) as [Hlt|Hge].
  - destruct (first_closest text _ cs) as [r'|] eqn:Hcs; cbn [default];
      intros [= <-].
    + destruct (IH _ _ Hcs) as (Hr & pre & post & -> & Hpre & Hpost).
      split; [lia|]. exists (c :: pre), post. split_and!; [done| |done].
      intros c' [->|Hin]%elem_of_cons; [done|by apply Hpre].
    + split; [done|]. exists [], cs.
      split_and!; [done|by intros ? ?%elem_of_nil|].
      intros c' Hin. by eapply first_closest_None.
  - intros Hcs. destruct (IH _ _ Hcs) as (Hr & pre & post & -> & Hpre & Hpost).
    split; [done|]. exists (c :: pre), post. split_and!; [done| |done].
    intros c' [->|Hin]%elem_of_cons; [lia|by apply Hpre].
Qed.

(** C1.  If a token has the replacement [r] in the result of
    [candidateRanking], then the token is a key of the input dict, [r] occurs
    in the token's own candidate list, no candidate of that list is closer
    (in edit distance) to the token's text than [r], and every candidate
    listed before [r] is strictly farther: among ties the earliest wins. *)
Theorem candidateRanking_picks_first_closest
    (misspellingsDict : gmap Token.t (list string)) token r :
  candidateRanking misspellingsDict !! token = Some r →
  ∃ candidates pre post,
    misspellingsDict !! token = Some candidates
    ∧ candidates = pre ++ r :: post
    ∧ r ∈ candidates
    ∧ (∀ c, c ∈ candidates →
         editdistance.eval (Token.text token) r
         ≤ editdistance.eval (Token.text token) c)
    ∧ (∀ c, c ∈ pre →
         editdistance.eval (Token.text token) r
         < editdistance.eval (Token.text token) c).
Proof.
  rewrite candidateRanking_lookup.
  destruct (misspellingsDict !! token) as [candidates|]; [cbn|done].
  intros (_ & pre & post & -> & Hpre & Hpost)%first_closest_Some.
  exists (pre ++ r :: post), pre, post. split_and!; [done|done| | |done].
  - apply elem_of_app. right. by left.
  - intros c [Hc|[->|Hc]%elem_of_cons]%elem_of_app.
    + by apply Nat.lt_le_incl, Hpre.
    + done.
    + by apply Hpost.
Qed.

(** C10.  A replacement in the result of [candidateRanking] is at edit
    distance less than 100 from the text of its token. *)
Theorem candidateRanking_below_100
    (misspellingsDict : gmap Token.t (list string)) token r :
  candidateRanking misspellingsDict !! token = Some r →
  editdistance.eval (Token.text token) r < 100.
Proof.
  rewrite candidateRanking_lookup.
  destruct (misspellingsDict !! token) as [candidates|]; [cbn|done].
  by intros [Hlt _]%first_closest_Some.
Qed.

(** The keys of the result are keys of the input, and a token without
    candidates is left out. *)
Lemma candidateRanking_dom (misspellingsDict : gmap Token.t (list string)) :
  dom (candidateRanking misspellingsDict) ⊆ dom misspellingsDict.
Proof.
  intros token. rewrite !elem_of_dom, candidateRanking_lookup.
  destruct (misspellingsDict !! token); [done|]. by intros [? ?].
Qed.

Lemma candidateRanking_no_candidates
    (misspellingsDict : gmap Token.t (list string)) token :
  misspellingsDict !! token = Some [] →
  candidateRanking misspellingsDict !! token = None.
Proof. intros H. by rewrite candidateRanking_lookup, H. Qed.
End ranking.

Example eval_milion :
  editdistance.eval "milion" "million" = 1
  ∧ editdistance.eval "milion" "millions" = 2
  ∧ editdistance.eval "kitten" "sitting" = 3.
Proof. by vm_compute. Qed.

(** "million" and "milions" are both at distance 1 from "milion": the one
    listed first is kept. *)
Lemma candidateRanking_picks_first_closest_witness :
  candidateRanking
    {[ Example.tk 2 "milion" " " := ["billion"; "million"; "milions"] ]}
    !! Example.tk 2 "milion" " " = Some "million"
  ∧ ∃ candidates pre post,
      ({[ Example.tk 2 "milion" " " := ["billion"; "million"; "milions"] ]}
         : gmap Token.t (list string)) !! Example.tk 2 "milion" " "
      = Some candidates
      ∧ candidates = pre ++ "million" :: post
      ∧ "million" ∈ candidates
      ∧ (∀ c, c ∈ candidates →
           editdistance.eval "milion" "million" ≤ editdistance.eval "milion" c)
      ∧ (∀ c, c ∈ pre →
           editdistance.eval "milion" "million" < editdistance.eval "milion" c).
Proof.
  split; [vm_compute; reflexivity|].
  apply (candidateRanking_picks_first_closest
           {[ Example.tk 2 "milion" " " := ["billion"; "million"; "milions"] ]}
           (Example.tk 2 "milion" " ") "million").
  vm_compute; reflexivity.
Defined.

Lemma candidateRanking_below_100_witness :
  candidateRanking
    {[ Example.tk 2 "milion" " " := ["billion"; "million"; "milions"] ]}
    !! Example.tk 2 "milion" " " = Some "million"
  ∧ editdistance.eval "milion" "million" < 100.
Proof.
  split; [vm_compute; reflexivity|].
  apply (candidateRanking_below_100
           {[ Example.tk 2 "milion" " " := ["billion"; "million"; "milions"] ]}
           (Example.tk 2 "milion" " ") "million").
  vm_compute; reflexivity.
Defined.

(** C4, at the failing input.  The 120-character token has ten candidates,
    each at edit distance 113 or more from it, and [candidateRanking] gives
    it no replacement: the result is empty although the candidate list is
    not. *)
Theorem candidateRanking_omits_distant_token :
  ({[ Example.long_token := Example.words ]} : gmap Token.t (list string))
    !! Example.long_token = Some Example.words
  ∧ Example.words ≠ []
  ∧ editdistance.eval (Token.text Example.long_token) <$> Example.words
    = [114; 113; 115; 117; 115; 116; 119; 119; 118; 115]
  ∧ candidateRanking {[ Example.long_token := Example.words ]} = ∅.
Proof.
  split_and!.
  - by vm_compute.
  - done.
  - by vm_compute.
  - apply map_eq. intros token.
    rewrite candidateRanking_lookup, lookup_empty.
    destruct (decide (token = Example.long_token)) as [->|Hne].
    + by vm_compute.
    + by rewrite lookup_singleton_ne.
Qed.

(** ** [candidateGenerator] *)

Section generator.
Context (self : ContextualSpellCheck) (doc : Doc.t) (top_n : nat).
Implicit Types (token : Token.t) (tr : list Event).

Lemma score_entries_from (ids : list nat) (scs : list Q) : ∀ n a acc tr,
  a + n ≤ length ids → a + n ≤ length scs →
  for_each (seq a n) acc
    (fun entries i =>
       tok ← index ids i; sc ← index scs i;
       mret (entries ++ [(decode self tok, round5 sc)])) tr
  = (Ok (acc ++ zip_with (fun id sc => (decode self id, round5 sc))
                  (take n (drop a ids)) (take n (drop a scs))), tr).
Proof.
  induction n as [|n IH]; intros a acc tr Hids Hscs; cbn [seq for_each].
  - cbn. by rewrite app_nil_r.
  - destruct (lookup_lt_is_Some_2 ids a) as [id Hid]; [lia|].
    destruct (lookup_lt_is_Some_2 scs a) as [sc Hsc]; [lia|].
    erewrite bind_Ok; last first.
    { unfold index. rewrite Hid, Hsc. reflexivity. }
    rewrite IH by lia.
    rewrite (drop_S ids id a), (drop_S scs sc a) by done.
    cbn [take zip_with]. by rewrite <- app_assoc.
Qed.

Lemma score_entries_Ok (ids : list nat) (scs : list Q) tr :
  length ids = top_n → length scs = top_n →
  score_entries self ids scs top_n tr =
    (Ok (zip_with (fun id sc => (decode self id, round5 sc)) ids scs), tr).
Proof.
  intros Hids Hscs. unfold score_entries.
  rewrite score_entries_from by lia.
  by rewrite !drop_0, !take_ge by lia.
Qed.

Lemma predict_Ok updatedQuery tr :
  predict self updatedQuery top_n tr =
    (Ok (BertTopK self updatedQuery top_n),
     tr ++ [Inference updatedQuery top_n]).
Proof. done. Qed.

Lemma generate_token_Ok acc token tr :
  topk_contract self top_n →
  generate_token self doc top_n acc token tr =
    (Ok (record_token self doc top_n acc token),
     tr ++ [Inference (maskedQuery self doc token) top_n]).
Proof.
  intros Hk. destruct acc as [response score].
  unfold generate_token, record_token, token_candidates, token_scores.
  cbn [fst snd].
  erewrite bind_Ok by apply predict_Ok.
  destruct (Hk (maskedQuery self doc token)) as [Hids Hscs].
  destruct (BertTopK self _ top_n) as [ids scs]. cbn [fst snd] in *.
  destruct (bool_decide (response !! token = None)); [|done].
  by erewrite bind_Ok by (by apply score_entries_Ok).
Qed.

Lemma generate_loop_Ok misspellings : ∀ acc tr,
  topk_contract self top_n →
  for_each misspellings acc (generate_token self doc top_n) tr =
    (Ok (fold_left (record_token self doc top_n) misspellings acc),
     tr ++ ((fun token => Inference (maskedQuery self doc token) top_n)
              <$> misspellings)).
Proof.
  induction misspellings as [|token ms IH]; intros acc tr Hk;
    cbn [for_each fold_left].
  - cbn. by rewrite app_nil_r.
  - erewrite bind_Ok by (by apply generate_token_Ok).
    rewrite IH by done. by rewrite fmap_cons, <- app_assoc.
Qed.

(** The two dicts are filled in step: the loop over pairs is a pair of
    loops. *)
Lemma record_fold_collect misspellings : ∀ acc,
  (∀ token, acc.1 !! token = None ↔ acc.2 !! token = None) →
  fold_left (record_token self doc top_n) misspellings acc =
    (fold_left
       (fun d token =>
          if bool_decide (d !! token = None)
          then <[token := token_candidates self doc top_n token]> d else d)
       misspellings acc.1,
     fold_left
       (fun d token =>
          if bool_decide (d !! token = None)
          then <[token := token_scores self doc top_n token]> d else d)
       misspellings acc.2).
Proof.
  induction misspellings as [|token ms IH]; intros [response score] Hdom;
    cbn [fold_left fst snd] in *; [done|].
  unfold record_token at 2. cbn [fst snd].
  destruct (decide (response !! token = None)) as [Hn|Hn].
  - assert (score !! token = None) as Hs by (by apply Hdom).
    rewrite !bool_decide_eq_true_2 by done.
    rewrite IH; [done|]. cbn [fst snd]. intros t.
    destruct (decide (token = t)) as [->|Hne].
    + by rewrite !lookup_insert_eq.
    + by rewrite !lookup_insert_ne.
  - assert (score !! token ≠ None) as Hs by (by rewrite <- Hdom).
    rewrite !bool_decide_eq_false_2 by done.
    by rewrite IH.
Qed.

Lemma collect_lookup_from {E} (entry : Token.t → E) misspellings :
  ∀ (d : gmap Token.t E) token,
    fold_left
      (fun d token =>
         if bool_decide (d !! token = None)
         then <[token := entry token]> d else d)
      misspellings d !! token
    = match d !! token with
      | Some v => Some v
      | None =>
          if decide (token ∈ misspellings) then Some (entry token) else None
      end.
Proof.
  induction misspellings as [|t ms IH]; intros d token; cbn [fold_left].
  - rewrite decide_False by apply not_elem_of_nil. by destruct (d !! token).
  - rewrite IH. destruct (decide (d !! t = None)) as [Hn|Hn].
    + rewrite bool_decide_eq_true_2 by done.
      destruct (decide (t = token)) as [->|Hne].
      * rewrite lookup_insert_eq, Hn, decide_True; [done|by left].
      * rewrite lookup_insert_ne by done.
        destruct (d !! token); [done|].
        destruct (decide (token ∈ ms)).
        -- rewrite decide_True; [done|by right].
        -- rewrite decide_False; [done|]. by intros [->|?]%elem_of_cons.
    + rewrite bool_decide_eq_false_2 by done.
      destruct (d !! token) eqn:Hd; [done|].
      destruct (decide (token ∈ ms)).
      * rewrite decide_True; [done|by right].
      * rewrite decide_False; [done|].
        intros [->|?]%elem_of_cons; congruence.
Qed.

Lemma collect_lookup {E} (entry : Token.t → E) misspellings token :
  collect entry misspellings !! token =
    if decide (token ∈ misspellings) then Some (entry token) else None.
Proof. unfold collect. by rewrite collect_lookup_from, lookup_empty. Qed.

Lemma dom_collect {E} (entry : Token.t → E) misspellings :
  dom (collect entry misspellings) = list_to_set misspellings.
Proof.
  apply set_eq. intros token.
  rewrite elem_of_dom, collect_lookup, elem_of_list_to_set.
  destruct (decide (token ∈ misspellings)); split; done.
Qed.

(** With a model that answers [top_n] entries, [candidateGenerator] returns:
    this is its result, its effect on the document and its calls. *)
Lemma candidateGenerator_Ok misspellings tr :
  topk_contract self top_n →
  candidateGenerator self doc misspellings top_n tr =
    (Ok (collect (token_candidates self doc top_n) misspellings,
         if negb (length misspellings =? 0)%nat
         then Doc.set_score_spellCheck
                (Some (collect (token_scores self doc top_n) misspellings))
                (Doc.set_performed_spellCheck true doc)
         else doc),
     tr ++ ((fun token => Inference (maskedQuery self doc token) top_n)
              <$> misspellings)).
Proof.
  intros Hk. unfold candidateGenerator.
  erewrite bind_Ok by (by apply generate_loop_Ok).
  by rewrite record_fold_collect.
Qed.

(** Whatever the model answers, a run that returns has only added entries
    for the tokens it was given, and has not touched the token sequence. *)
Lemma generate_token_keys acc token tr acc' tr' :
  generate_token self doc top_n acc token tr = (Ok acc', tr') →
  ∀ t, is_Some (acc'.1 !! t) → is_Some (acc.1 !! t) ∨ t = token.
Proof.
  destruct acc as [response score]. unfold generate_token.
  intros (top & tr1 & _ & H)%bind_inv_Ok. destruct top as [ids scs].
  destruct (bool_decide (response !! token = None)).
  - apply bind_inv_Ok in H as (entries & tr2 & _ & [<- _]%mret_inv_Ok).
    cbn [fst]. intros t. destruct (decide (token = t)) as [->|Hne]; [by right|].
    rewrite lookup_insert_ne by done. by left.
  - apply mret_inv_Ok in H as [<- _]. by left.
Qed.

Lemma generate_loop_keys misspellings : ∀ acc tr acc' tr',
  for_each misspellings acc (generate_token self doc top_n) tr
    = (Ok acc', tr') →
  ∀ t, is_Some (acc'.1 !! t) → is_Some (acc.1 !! t) ∨ t ∈ misspellings.
Proof.
  induction misspellings as [|token ms IH]; intros acc tr acc' tr';
    cbn [for_each].
  - intros [<- _]%mret_inv_Ok. by left.
  - intros (acc1 & tr1 & H1 & H)%bind_inv_Ok t Ht.
    destruct (IH _ _ _ _ H t Ht) as [H'|H']; [|right; by right].
    destruct (generate_token_keys _ _ _ _ _ H1 t H') as [?| ->]; [by left|].
    right. by left.
Qed.

Lemma candidateGenerator_inv misspellings tr candidate doc1 tr1 :
  candidateGenerator self doc misspellings top_n tr
    = (Ok (candidate, doc1), tr1) →
  Doc.tokens doc1 = Doc.tokens doc
  ∧ ∀ t, is_Some (candidate !! t) → t ∈ misspellings.
Proof.
  unfold candidateGenerator.
  intros ([response score] & tr2 & Hloop & H)%bind_inv_Ok.
  apply mret_inv_Ok in H as [[= <- <-] _]. split.
  - by destruct (negb _).
  - intros t Ht.
    destruct (generate_loop_keys _ _ _ _ _ Hloop t Ht) as [H|H]; [|done].
    cbn in H. rewrite lookup_empty in H. by destruct H.
Qed.

(** The masked rendering, piece by piece. *)
Lemma maskedQuery_join token :
  maskedQuery self doc token
  = join (masked_piece self token <$> Doc.tokens doc).
Proof.
  unfold maskedQuery.
  rewrite <- (sapp_nil_l (join _)), <- (fold_left_join (masked_piece self token)).
  generalize "". induction (Doc.tokens doc) as [|i l IH]; intros acc; [done|].
  cbn [fold_left]. rewrite <- IH. unfold masked_piece.
  by destruct (Token.i i =? Token.i token)%nat.
Qed.

Lemma masked_piece_other token (l : list Token.t) :
  (∀ t, t ∈ l → Token.i t ≠ Token.i token) →
  masked_piece self token <$> l = Token.text_with_ws <$> l.
Proof.
  intros H. apply list_fmap_ext. intros k t Hk. unfold masked_piece.
  destruct (Nat.eqb_spec (Token.i t) (Token.i token)) as [E|]; [|done].
  by apply H in E; [|eapply list_elem_of_lookup_2].
Qed.

Lemma maskedQuery_split token :
  Doc.wf doc → token ∈ Doc.tokens doc →
  maskedQuery self doc token =
    join (Token.text_with_ws <$> take (Token.i token) (Doc.tokens doc))
    +:+ (mask self
    +:+ (Token.whitespace_ token
    +:+ join (Token.text_with_ws
                <$> drop (S (Token.i token)) (Doc.tokens doc)))).
Proof.
  intros Hwf Hin. pose proof (wf_lookup_i doc Hwf token Hin) as Hk.
  rewrite maskedQuery_join.
  rewrite <- (take_drop_middle _ _ _ Hk) at 1.
  rewrite fmap_app, fmap_cons, join_app. cbn [join foldr].
  fold (join (masked_piece self token
                <$> drop (S (Token.i token)) (Doc.tokens doc))).
  rewrite !masked_piece_other.
  - unfold masked_piece at 1. by rewrite Nat.eqb_refl, sapp_assoc.
  - intros t [j Hj]%list_elem_of_lookup. rewrite lookup_drop in Hj.
    apply (wf_lookup doc Hwf) in Hj. lia.
  - intros t (j & Hj & Hlt)%elem_of_take.
    apply (wf_lookup doc Hwf) in Hj. lia.
Qed.

(** C5, as amended.  In a document whose token indices are its positions,
    with a model answering [top_n] entries, [candidateGenerator] submits one
    text per misspelled token, in the order of [misspellings]; the text for a
    token is the text of the tokens before it, the mask, the token's own
    trailing whitespace and the text of the tokens after it, every token
    with its trailing whitespace.  When the mask is unbordered (as "[MASK]"
    is), it occurs in that text once more than in the source text around the
    token: exactly once if and only if the source text around the token does
    not spell the mask. *)
Theorem candidateGenerator_masked_text misspellings tr :
  Doc.wf doc →
  topk_contract self top_n →
  (∀ token, token ∈ misspellings → token ∈ Doc.tokens doc) →
  (candidateGenerator self doc misspellings top_n tr).2
    = tr ++ ((fun token => Inference (maskedQuery self doc token) top_n)
               <$> misspellings)
  ∧ ∀ token, token ∈ misspellings →
      let before :=
        join (Token.text_with_ws <$> take (Token.i token) (Doc.tokens doc)) in
      let after :=
        Token.whitespace_ token
        +:+ join (Token.text_with_ws
                    <$> drop (S (Token.i token)) (Doc.tokens doc)) in
      maskedQuery self doc token = before +:+ (mask self +:+ after)
      ∧ (unbordered (mask self) = true →
         occurrences (mask self) (maskedQuery self doc token)
         = occurrences (mask self) before + 1
           + occurrences (mask self) after).
Proof.
  intros Hwf Hk Hsub. split.
  - by rewrite candidateGenerator_Ok.
  - intros token Hin before after.
    assert (maskedQuery self doc token = before +:+ (mask self +:+ after)) as E.
    { apply maskedQuery_split; auto. }
    split; [done|]. intros Hm. rewrite E. by apply occurrences_insert.
Qed.

(** C7.  Called with no misspelled token, [candidateGenerator] returns the
    empty dict and leaves the document and the trace as they were.  Called
    with at least one (and a model answering [top_n] entries), it returns
    with the "performed" flag of the document set and the score map stored
    on it; the stored map has the given tokens as its keys and holds, for
    each of them, the [top_n] (decoded string, rounded score) pairs of its
    masked rendering; the token sequence and the outcome are not touched.
    Nothing here depends on what ranking does afterwards. *)
Theorem candidateGenerator_records tr :
  candidateGenerator self doc [] top_n tr = (Ok (∅, doc), tr)
  ∧ ∀ misspellings,
      misspellings ≠ [] → topk_contract self top_n →
      ∃ response doc' tr',
        candidateGenerator self doc misspellings top_n tr
          = (Ok (response, doc'), tr')
        ∧ Doc.performed_spellCheck doc' = true
        ∧ Doc.score_spellCheck doc'
          = Some (collect (token_scores self doc top_n) misspellings)
        ∧ dom (collect (token_scores self doc top_n) misspellings)
          = list_to_set misspellings
        ∧ (∀ token, token ∈ misspellings →
             collect (token_scores self doc top_n) misspellings !! token
             = Some (token_scores self doc top_n token))
        ∧ Doc.tokens doc' = Doc.tokens doc
        ∧ Doc.outcome_spellCheck doc' = Doc.outcome_spellCheck doc.
Proof.
  split; [done|]. intros ms Hne Hk.
  rewrite candidateGenerator_Ok by done.
  destruct ms as [|token ms]; [done|]. cbn [length Nat.eqb negb].
  eexists _, _, _. split; [done|]. split_and!; try done.
  - apply dom_collect.
  - intros t Ht. by rewrite collect_lookup, decide_True.
Qed.
End generator.

Lemma income_wf : Doc.wf Example.income.
Proof. reflexivity. Qed.

Lemma checker_topk top_n : topk_contract Example.checker top_n.
Proof.
  intros updatedQuery. cbn. by rewrite length_fmap, length_seq.
Qed.

Lemma candidateGenerator_masked_text_witness :
  Doc.wf Example.income
  ∧ topk_contract Example.checker 10
  ∧ (∀ token,
       token ∈ [Example.tk 2 "milion" " "; Example.tk 9 "milion" ""] →
       token ∈ Doc.tokens Example.income)
  ∧ Example.tk 2 "milion" " "
      ∈ [Example.tk 2 "milion" " "; Example.tk 9 "milion" ""]
  ∧ unbordered (mask Example.checker) = true
  ∧ (candidateGenerator Example.checker Example.income
       [Example.tk 2 "milion" " "; Example.tk 9 "milion" ""] 10 []).2
    = [Inference "Income was [MASK] compared to the prior year of milion." 10;
       Inference "Income was milion compared to the prior year of [MASK]." 10]
  ∧ maskedQuery Example.checker Example.income (Example.tk 2 "milion" " ")
    = "Income was "
      +:+ ("[MASK]" +:+ " compared to the prior year of milion.")
  ∧ occurrences "[MASK]"
      (maskedQuery Example.checker Example.income (Example.tk 2 "milion" " "))
    = 0 + 1 + 0.
Proof.
  assert (∀ token,
            token ∈ [Example.tk 2 "milion" " "; Example.tk 9 "milion" ""] →
            token ∈ Doc.tokens Example.income) as Hsub.
  { intros token Hin. apply list_elem_of_lookup.
    apply elem_of_cons in Hin as [->|Hin]; [by exists 2|].
    apply elem_of_cons in Hin as [->|Hin]; [by exists 9|].
    by apply elem_of_nil in Hin. }
  assert (Example.tk 2 "milion" " "
            ∈ [Example.tk 2 "milion" " "; Example.tk 9 "milion" ""]) as Hin
    by apply list_elem_of_here.
  destruct (candidateGenerator_masked_text Example.checker Example.income 10
              [Example.tk 2 "milion" " "; Example.tk 9 "milion" ""] []
              income_wf (checker_topk 10) Hsub) as [Htrace Htoken].
  destruct (Htoken _ Hin) as [Htext Hocc].
  specialize (Hocc eq_refl).
  split_and!; [exact income_wf|exact (checker_topk 10)|exact Hsub|exact Hin
              |reflexivity|exact Htrace|exact Htext|exact Hocc].
Defined.

(** C5, as stated, fails on "[MASK] milion": the text submitted for the one
    misspelled token, "milion", contains the mask twice. *)
Lemma masked_text_repeats_mask :
  Doc.wf Example.bracket_doc
  ∧ (misspellIdentify Example.checker Example.bracket_doc).1
    = [Example.tk 3 "milion" ""]
  ∧ (candidateGenerator Example.checker Example.bracket_doc
       [Example.tk 3 "milion" ""] 10 []).2
    = [Inference "[MASK] [MASK]" 10]
  ∧ occurrences (mask Example.checker) "[MASK] [MASK]" = 2.
Proof. split_and!; by vm_compute. Qed.

Lemma candidateGenerator_records_witness :
  [Example.tk 2 "milion" " "; Example.tk 9 "milion" ""] ≠ []
  ∧ topk_contract Example.checker 10
  ∧ ∃ response doc' tr',
      candidateGenerator Example.checker Example.income
        [Example.tk 2 "milion" " "; Example.tk 9 "milion" ""] 10 []
      = (Ok (response, doc'), tr')
      ∧ Doc.performed_spellCheck doc' = true
      ∧ Doc.score_spellCheck doc'
        = Some (collect (token_scores Example.checker Example.income 10)
                  [Example.tk 2 "milion" " "; Example.tk 9 "milion" ""])
      ∧ dom (collect (token_scores Example.checker Example.income 10)
               [Example.tk 2 "milion" " "; Example.tk 9 "milion" ""])
        = list_to_set [Example.tk 2 "milion" " "; Example.tk 9 "milion" ""]
      ∧ (∀ token,
           token ∈ [Example.tk 2 "milion" " "; Example.tk 9 "milion" ""] →
           collect (token_scores Example.checker Example.income 10)
             [Example.tk 2 "milion" " "; Example.tk 9 "milion" ""] !! token
           = Some (token_scores Example.checker Example.income 10 token))
      ∧ Doc.tokens doc' = Doc.tokens Example.income
      ∧ Doc.outcome_spellCheck doc' = Doc.outcome_spellCheck Example.income.
Proof.
  split; [discriminate|]. split; [exact (checker_topk 10)|].
  apply (proj2 (candidateGenerator_records Example.checker Example.income 10 [])
           [Example.tk 2 "milion" " "; Example.tk 9 "milion" ""]).
  - discriminate.
  - exact (checker_topk 10).
Defined.

(** ** The assembly of the corrected text *)

Section assembly.
Context (self : ContextualSpellCheck).
Implicit Types (answer : gmap Token.t string) (token : Token.t) (doc : Doc.t).

(** Both assembly loops, for any test [inside] that holds of ranked tokens
    only: the loop returns and concatenates the pieces of the tokens. *)
Lemma assemble_loop_Ok (inside : Token.t → bool) answer tr (l : list Token.t) :
  ∀ acc,
    (∀ token, token ∈ l → inside token = true → is_Some (answer !! token)) →
    (∀ token, token ∈ l → inside token = false → answer !! token = None) →
    for_each l acc
      (fun updatedQuery i =>
         if inside i then
           replacement ← getitem answer i;
           mret (updatedQuery +:+ (replacement +:+ Token.whitespace_ i))
         else mret (updatedQuery +:+ Token.text_with_ws i)) tr
    = (Ok (acc +:+ join (corrected_piece answer <$> l)), tr).
Proof.
  induction l as [|i l IH]; intros acc Hin Hout; cbn [for_each].
  - by rewrite sapp_nil_r.
  - rewrite fmap_cons. cbn [join foldr].
    fold (join (corrected_piece answer <$> l)).
    unfold corrected_piece at 1.
    destruct (inside i) eqn:Hi.
    + destruct (Hin i) as [r Hr]; [by left|done|].
      erewrite bind_Ok; last first.
      { unfold getitem. rewrite Hr. reflexivity. }
      rewrite Hr, IH; [by rewrite sapp_assoc| |].
      * intros t Ht. apply Hin. by right.
      * intros t Ht. apply Hout. by right.
    + rewrite (Hout i) by (done || by left).
      erewrite bind_Ok by reflexivity.
      rewrite IH; [by rewrite sapp_assoc| |].
      * intros t Ht. apply Hin. by right.
      * intros t Ht. apply Hout. by right.
Qed.

(** A token that passes the test but has no entry in [answer] stops the
    loop with a [KeyError]. *)
Lemma assemble_loop_KeyError (inside : Token.t → bool) answer tr
    (l : list Token.t) : ∀ acc,
  (∃ token, token ∈ l ∧ inside token = true ∧ answer !! token = None) →
  for_each l acc
    (fun updatedQuery i =>
       if inside i then
         replacement ← getitem answer i;
         mret (updatedQuery +:+ (replacement +:+ Token.whitespace_ i))
       else mret (updatedQuery +:+ Token.text_with_ws i)) tr
  = (Raise KeyError, tr).
Proof.
  induction l as [|i l IH]; intros acc (token & Hin & Hi & Hnone).
  { by apply elem_of_nil in Hin. }
  cbn [for_each]. unfold mbind at 1, M_bind at 1.
  destruct (inside i) eqn:Hinside.
  - unfold getitem, mbind, M_bind.
    destruct (answer !! i) as [r|] eqn:Hr; [|done].
    cbn. apply IH. exists token. split_and!; [|done..].
    apply elem_of_cons in Hin as [->|Hin]; [congruence|done].
  - cbn. apply IH. exists token. split_and!; [|done..].
    apply elem_of_cons in Hin as [->|Hin]; [congruence|done].
Qed.

(** When every misspelled token has a replacement, [__call__] returns and
    the outcome is the concatenation, in document order, of the replacement
    of each ranked token and the text of each other token, each followed by
    the token's own trailing whitespace. *)
Lemma call_assembles_corrected_text doc tr candidate doc1 tr1 :
  Doc.wf doc →
  (misspellIdentify self doc).1 ≠ [] →
  candidateGenerator self doc (misspellIdentify self doc).1 10 tr
    = (Ok (candidate, doc1), tr1) →
  (∀ token, token ∈ (misspellIdentify self doc).1 →
     is_Some (candidateRanking candidate !! token)) →
  __call__ self doc tr
    = (Ok (Doc.set_outcome_spellCheck
             (join (corrected_piece (candidateRanking candidate)
                      <$> Doc.tokens doc))
             doc1),
       tr1).
Proof.
  unfold __call__. rewrite misspellIdentify_filter. cbn [fst].
  set (ms := filter (Misspelled self) (Doc.tokens doc)).
  intros Hwf Hne Hgen Hall.
  destruct (candidateGenerator_inv _ _ _ _ _ _ _ _ Hgen) as [Htoks Hkeys].
  assert ((0 <? length ms)%nat = true) as ->.
  { apply Nat.ltb_lt. destruct ms; [done|cbn; lia]. }
  erewrite bind_Ok by exact Hgen. cbv beta iota.
  assert (∀ t, t ∈ ms → t ∈ Doc.tokens doc) as Hsub.
  { intros t Ht. by apply list_elem_of_filter in Ht as [_ ?]. }
  erewrite bind_Ok; [reflexivity|].
  unfold assemble_call. rewrite Htoks.
  rewrite (assemble_loop_Ok
             (fun i => bool_decide (Token.i i ∈ Token.i <$> ms))); [done| |].
  - intros t Ht Hi%bool_decide_eq_true. apply Hall.
    by apply (wf_index_elem doc Hwf t ms Hsub Ht).
  - intros t Ht Hi%bool_decide_eq_false.
    rewrite candidateRanking_lookup.
    destruct (candidate !! t) eqn:Hc; [|done].
    exfalso. apply Hi, list_elem_of_fmap_2, Hkeys. by rewrite Hc.
Qed.

(** With a misspelled token that ranking left out, [__call__] raises
    [KeyError] once candidate generation has returned. *)
Lemma call_KeyError doc tr candidate doc1 tr1 token :
  candidateGenerator self doc (misspellIdentify self doc).1 10 tr
    = (Ok (candidate, doc1), tr1) →
  token ∈ (misspellIdentify self doc).1 →
  candidateRanking candidate !! token = None →
  __call__ self doc tr = (Raise KeyError, tr1).
Proof.
  unfold __call__. rewrite misspellIdentify_filter. cbn [fst].
  set (ms := filter (Misspelled self) (Doc.tokens doc)).
  intros Hgen Hin Hnone.
  destruct (candidateGenerator_inv _ _ _ _ _ _ _ _ Hgen) as [Htoks _].
  assert ((0 <? length ms)%nat = true) as ->.
  { apply Nat.ltb_lt. destruct ms; [by apply elem_of_nil in Hin|cbn; lia]. }
  erewrite bind_Ok by exact Hgen. cbv beta iota.
  unfold mbind at 1, M_bind at 1. unfold assemble_call. rewrite Htoks.
  rewrite (assemble_loop_KeyError
             (fun i => bool_decide (Token.i i ∈ Token.i <$> ms))); [done|].
  exists token. split_and!; [|by apply bool_decide_eq_true_2, list_elem_of_fmap_2|done].
  by apply list_elem_of_filter in Hin as [_ ?].
Qed.
End assembly.

(** The example of the specification: both "milion" are replaced by
    "million", spacing and punctuation are kept. *)
Example call_income :
  match __call__ Example.checker Example.income [] with
  | (Ok doc, tr) =>
      Doc.outcome_spellCheck doc
      = "Income was million compared to the prior year of million."
      ∧ Doc.performed_spellCheck doc = true
      ∧ length tr = 2
  | (Raise _, _) => False
  end.
Proof. by vm_compute. Qed.

(** C3, at the failing input.  The document "Income was <120 letters>" has
    one misspelled token; candidate generation returns ten candidates for it
    and ranking keeps none of them, all being at edit distance 100 or more;
    [__call__] then raises [KeyError] at [answer[i]] instead of passing the
    token through. *)
Theorem call_raises_on_unranked_token :
  (misspellIdentify Example.checker Example.long_doc).1 = [Example.long_token]
  ∧ match candidateGenerator Example.checker Example.long_doc
            [Example.long_token] 10 [] with
    | (Ok (candidate, _), _) =>
        candidate !! Example.long_token = Some Example.words
        ∧ candidateRanking candidate !! Example.long_token = None
    | (Raise _, _) => False
    end
  ∧ __call__ Example.checker Example.long_doc []
    = (Raise KeyError, [Inference "Income was [MASK]" 10]).
Proof. split_and!; by vm_compute. Qed.

(** ** [check] *)

Section check.
Context (nlp : string → list Token.t) (self : ContextualSpellCheck).

(** C8, at the failing input.  For the empty string the guard
    [type(query) != str and len(query) == 0] is false: [check] calls the
    spaCy pipeline on it and, the pipeline finding no token in it, returns
    the pair of the empty string and the fresh document, not the
    invalid-query pair. *)
Theorem check_accepts_empty_string tr :
  nlp "" = [] →
  check nlp self (PyStr "") tr
    = (Ok (Checked "" (Doc.fresh [])), tr ++ [SpacyParse ""]).
Proof.
  intros Hnlp. unfold check, parse. cbn [is_str negb].
  unfold mbind, M_bind, mret, M_ret, emit. by rewrite Hnlp.
Qed.

(** The guard does fire on an empty list, and [len] raises on [None]. *)
Lemma check_empty_list tr :
  check nlp self (PyList []) tr
    = (Ok (InvalidQuery "Invalid query, expected non empty `str` but passed"
             (PyList [])), tr).
Proof. done. Qed.

Lemma check_None tr : check nlp self PyNone tr = (Raise TypeError, tr).
Proof. done. Qed.
End check.

Lemma check_accepts_empty_string_witness :
  Example.stub_nlp "" = []
  ∧ check Example.stub_nlp Example.checker (PyStr "") []
    = (Ok (Checked "" (Doc.fresh [])), [] ++ [SpacyParse ""]).
Proof.
  split; [reflexivity|].
  apply (check_accepts_empty_string Example.stub_nlp Example.checker []).
  reflexivity.
Defined.

(** ** [doc_suggestions_spellCheck] *)

Section suggestions.
Implicit Types (token : Token.t) (response : gmap Token.t (list string)).

Lemma fold_alter_append token (l : list (string * Q)) : ∀ response acc,
  fold_left
    (fun response suggestion_score =>
       alter (fun l => l ++ [suggestion_score.1]) token response)
    l (<[token := acc]> response)
  = <[token := acc ++ strings_of l]> response.
Proof.
  induction l as [|p l IH]; intros response acc; cbn [fold_left].
  - by rewrite app_nil_r.
  - rewrite alter_insert_eq, IH. unfold strings_of. rewrite fmap_cons.
    by rewrite <- app_assoc.
Qed.

Lemma suggestions_token_fresh token l response :
  response !! token = None →
  suggestions_token token l response = <[token := strings_of l]> response.
Proof.
  intros Hfresh. unfold suggestions_token.
  rewrite bool_decide_eq_true_2 by done. by rewrite fold_alter_append.
Qed.

Lemma suggestions_fold (score : gmap Token.t (list (string * Q))) :
  map_fold suggestions_token ∅ score = strings_of <$> score.
Proof.
  apply (map_fold_weak_ind
    (fun response (m : gmap Token.t (list (string * Q))) =>
       response = strings_of <$> m)).
  - by rewrite fmap_empty.
  - intros token l m response Hfresh ->.
    rewrite suggestions_token_fresh by (by rewrite lookup_fmap, Hfresh).
    by rewrite fmap_insert.
Qed.

(** C9.  The suggestion map of a document is its score map with the scores
    dropped: it is empty when the score map is unset; otherwise it has the
    keys of the score map and maps each token to the candidate strings of
    the token's (string, score) pairs, in the same order. *)
Theorem doc_suggestions_drop_scores (doc : Doc.t) :
  doc_suggestions_spellCheck doc =
    match Doc.score_spellCheck doc with
    | None => ∅
    | Some score => strings_of <$> score
    end
  ∧ dom (doc_suggestions_spellCheck doc)
    = from_option dom ∅ (Doc.score_spellCheck doc)
  ∧ ∀ token,
      doc_suggestions_spellCheck doc !! token =
        Doc.score_spellCheck doc
          ≫= (fun score => (fun l => l.*1) <$> score !! token).
Proof.
  unfold doc_suggestions_spellCheck.
  destruct (Doc.score_spellCheck doc) as [score|]; cbn.
  - rewrite suggestions_fold. split_and!; [done|by rewrite dom_fmap_L|].
    intros token. by rewrite lookup_fmap.
  - split_and!; [done|by rewrite dom_empty_L|done].
Qed.
End suggestions.

(** * Further properties *)

(** ** Edit distance and lengths *)

Section levenshtein.
Import editdistance.

Lemma next_row_between c n : ∀ b prev j diag left k v,
  (∀ k v, prev !! k = Some v → between_lengths n (S j + k) v) →
  between_lengths n j diag →
  between_lengths (S n) j left →
  next_row c b prev diag left !! k = Some v →
  between_lengths (S n) (S j + k) v.
Proof.
  induction b as [|d b IH]; intros prev j diag left k v Hprev Hdiag Hleft;
    [done|].
  destruct prev as [|up prev]; [done|]. cbn [next_row].
  pose proof (Hprev 0 up eq_refl) as Hup.
  set (w := Nat.min (Nat.min (up + 1) (left + 1))
              (diag + (if Ascii.eqb c d then 0 else 1))).
  assert (between_lengths (S n) (S j) w) as Hw.
  { unfold between_lengths in *. subst w. rewrite Nat.add_0_r in Hup.
    destruct (Ascii.eqb c d); lia. }
  destruct k as [|k]; cbn.
  - intros [= <-]. by rewrite Nat.add_0_r.
  - intros Hk. replace (S (j + S k)) with (S (S j) + k) by lia.
    apply (IH prev (S j) up w k v); [|by rewrite Nat.add_0_r in Hup|done|done].
    intros k' v' Hk'. replace (S (S j) + k') with (S j + S k') by lia.
    by apply Hprev.
Qed.

Lemma step_row_between c b n prev k v :
  (∀ k v, prev !! k = Some v → between_lengths n k v) →
  step_row prev c b !! k = Some v →
  between_lengths (S n) k v.
Proof.
  intros Hprev. destruct prev as [|p0 prev]; [done|]. cbn [step_row].
  pose proof (Hprev 0 p0 eq_refl) as H0.
  assert (between_lengths (S n) 0 (p0 + 1)) as H0'.
  { unfold between_lengths in *. lia. }
  destruct k as [|k]; cbn; [by intros [= <-]|].
  apply (next_row_between c n b prev 0 p0 (p0 + 1) k v); [|done|done].
  intros k' v' Hk'. by apply (Hprev (S k')).
Qed.

Lemma next_row_length c : ∀ b prev diag left,
  length (next_row c b prev diag left) = String.length b `min` length prev.
Proof.
  induction b as [|d b IH]; intros [|up prev] diag left; cbn; try done.
  by rewrite IH.
Qed.

Lemma step_row_length c b prev :
  length prev = S (String.length b) →
  length (step_row prev c b) = S (String.length b).
Proof.
  destruct prev as [|p0 prev]; [done|]. cbn. rewrite next_row_length. lia.
Qed.

Lemma rows_between b : ∀ a n prev,
  length prev = S (String.length b) →
  (∀ k v, prev !! k = Some v → between_lengths n k v) →
  length (rows a b prev) = S (String.length b)
  ∧ ∀ k v, rows a b prev !! k = Some v →
           between_lengths (n + String.length a) k v.
Proof.
  induction a as [|c a IH]; intros n prev Hlen Hprev; cbn [rows String.length].
  - by rewrite Nat.add_0_r.
  - replace (n + S (String.length a)) with (S n + String.length a) by lia.
    apply IH; [by apply step_row_length|].
    intros k v. by apply step_row_between.
Qed.

Lemma last_lookup_default (l : list nat) d :
  l ≠ [] → l !! pred (length l) = Some (List.last l d).
Proof.
  induction l as [|x l IH]; [done|]. intros _.
  destruct l as [|y l]; [done|]. cbn [length pred].
  change (List.last (x :: y :: l) d) with (List.last (y :: l) d).
  by rewrite <- IH.
Qed.

(** The distance computed row by row lies between the difference of the
    two lengths and the larger of them. *)
Lemma eval_between a b :
  between_lengths (String.length a) (String.length b) (eval a b).
Proof.
  unfold eval.
  destruct (rows_between b a 0 (seq 0 (S (String.length b)))) as [Hlen Hrow].
  - by rewrite length_seq.
  - intros k v [-> Hk]%lookup_seq. unfold between_lengths. lia.
  - apply (Hrow (String.length b)).
    rewrite <- (last_lookup_default _ 0), Hlen; [done|].
    intros E. by rewrite E in Hlen.
Qed.
End levenshtein.

(** ** More on [candidateRanking] *)

Section ranking_more.
Implicit Types (token : Token.t) (candidates : list string).

Lemma first_closest_is_Some text candidates bound :
  is_Some (first_closest text bound candidates)
  ↔ ∃ c, c ∈ candidates ∧ editdistance.eval text c < bound.
Proof.
  split.
  - intros [r Hr].
    apply first_closest_Some in Hr as (Hlt & pre & post & -> & _).
    exists r. split; [|done]. apply elem_of_app. right. by left.
  - intros (c & Hin & Hlt).
    destruct (first_closest text bound candidates) eqn:E; [done|].
    pose proof (first_closest_None _ _ _ E c Hin). lia.
Qed.

(** X1.  A token has a replacement in the result of [candidateRanking] if
    and only if it is a key of the input and one of its candidates is at edit
    distance less than 100 from its text.  (So every key of the result is a
    key of the input, and a token with no candidate is left out.) *)
Theorem candidateRanking_domain
    (misspellingsDict : gmap Token.t (list string)) token :
  is_Some (candidateRanking misspellingsDict !! token)
  ↔ ∃ candidates c,
      misspellingsDict !! token = Some candidates
      ∧ c ∈ candidates
      ∧ editdistance.eval (Token.text token) c < 100.
Proof.
  rewrite candidateRanking_lookup.
  destruct (misspellingsDict !! token) as [candidates|]; cbn.
  - rewrite first_closest_is_Some. split.
    + intros (c & ? & ?). by exists candidates, c.
    + intros (? & c & [= <-] & ? & ?). by exists c.
  - split; [by intros [? ?]|by intros (? & ? & ? & _)].
Qed.

(** X2.  Ranking is done token by token: setting the candidates of one
    token in the input sets or removes the replacement of that token in the
    result and changes nothing else. *)
Theorem candidateRanking_insert
    (misspellingsDict : gmap Token.t (list string)) token candidates :
  candidateRanking (<[token := candidates]> misspellingsDict) =
    match first_closest (Token.text token) 100 candidates with
    | Some r => <[token := r]> (candidateRanking misspellingsDict)
    | None => delete token (candidateRanking misspellingsDict)
    end.
Proof.
  apply map_eq. intros k. rewrite candidateRanking_lookup.
  destruct (decide (token = k)) as [->|Hne].
  - rewrite lookup_insert_eq. cbn.
    destruct (first_closest _ _ candidates).
    + by rewrite lookup_insert_eq.
    + by rewrite lookup_delete_eq.
  - rewrite lookup_insert_ne by done.
    destruct (first_closest _ _ candidates).
    + by rewrite lookup_insert_ne, candidateRanking_lookup.
    + by rewrite lookup_delete_ne, candidateRanking_lookup.
Qed.

(** X3.  A token whose text differs in length by 100 characters or more
    from each of its candidates gets no replacement. *)
Theorem candidateRanking_drops_by_length
    (misspellingsDict : gmap Token.t (list string)) token candidates :
  misspellingsDict !! token = Some candidates →
  (∀ c, c ∈ candidates →
     String.length c + 100 ≤ String.length (Token.text token)
     ∨ String.length (Token.text token) + 100 ≤ String.length c) →
  candidateRanking misspellingsDict !! token = None.
Proof.
  intros Hd Hall. rewrite candidateRanking_lookup, Hd. cbn.
  destruct (first_closest _ _ _) as [r|] eqn:E; [|done].
  assert (is_Some (first_closest (Token.text token) 100 candidates)) as Hs
    by (by rewrite E).
  apply first_closest_is_Some in Hs as (c & Hc & Hlt).
  destruct (eval_between (Token.text token) c) as (? & ? & _).
  destruct (Hall c Hc); lia.
Qed.

(** X4.  A token of fewer than 100 characters with a candidate of fewer
    than 100 characters always gets a replacement. *)
Theorem candidateRanking_ranks_short
    (misspellingsDict : gmap Token.t (list string)) token candidates c :
  misspellingsDict !! token = Some candidates →
  String.length (Token.text token) < 100 →
  c ∈ candidates → String.length c < 100 →
  is_Some (candidateRanking misspellingsDict !! token).
Proof.
  intros Hd Hlen Hc Hclen. rewrite candidateRanking_lookup, Hd. cbn.
  apply first_closest_is_Some. exists c. split; [done|].
  destruct (eval_between (Token.text token) c) as (_ & _ & ?). lia.
Qed.
End ranking_more.

Lemma candidateRanking_drops_by_length_witness :
  ({[ Example.long_token := Example.words ]} : gmap Token.t (list string))
    !! Example.long_token = Some Example.words
  ∧ candidateRanking {[ Example.long_token := Example.words ]}
      !! Example.long_token = None.
Proof.
  split; [by vm_compute|].
  apply (candidateRanking_drops_by_length _ _ Example.words).
  - by vm_compute.
  - apply Forall_forall. apply (bool_decide_unpack _). by vm_compute.
Defined.

Lemma candidateRanking_ranks_short_witness :
  String.length (Token.text milion2) < 100
  ∧ String.length "million" < 100
  ∧ is_Some (candidateRanking {[ milion2 := Example.words ]} !! milion2).
Proof.
  split; [vm_compute; lia|]. split; [vm_compute; lia|].
  apply (candidateRanking_ranks_short _ _ Example.words "million").
  - by vm_compute.
  - vm_compute; lia.
  - apply list_elem_of_here.
  - vm_compute; lia.
Defined.

(** ** More on [misspellIdentify] *)

Section lower.
Lemma lower_char_idemp c : lower_char (lower_char c) = lower_char c.
Proof. by destruct c as [[] [] [] [] [] [] [] []]. Qed.

Lemma lower_idemp s : lower (lower s) = lower s.
Proof.
  induction s as [|c s IH]; [done|]. cbn. by rewrite lower_char_idemp, IH.
Qed.
End lower.

Section identify_more.
Context (self : ContextualSpellCheck).

Lemma filter_sublist_impl {A} (P Q : A → Prop)
    `{!∀ x, Decision (P x)} `{!∀ x, Decision (Q x)} (l : list A) :
  (∀ x, P x → Q x) → filter P l `sublist_of` filter Q l.
Proof.
  intros HPQ. induction l as [|x l IH]; [done|]. rewrite !filter_cons.
  destruct (decide (P x)) as [HP|HP].
  - rewrite decide_True by auto. by apply sublist_skip.
  - destruct (decide (Q x)); [by apply sublist_cons|done].
Qed.

(** X5.  Only the lower-cased text of a token is looked up, so a
    vocabulary word with an upper-case letter is never matched: adding such
    a word to the vocabulary changes nothing. *)
Theorem misspellIdentify_cased_word_dead w doc :
  lower w ≠ w →
  misspellIdentify (with_vocab ({[w]} ∪ vocab self) self) doc
  = misspellIdentify self doc.
Proof.
  intros Hw. rewrite !misspellIdentify_filter. f_equal.
  apply list_filter_iff. intros token. unfold Misspelled.
  cbn [vocab with_vocab].
  assert (lower (Token.text token) ≠ w) as Hne.
  { intros E. apply Hw. by rewrite <- E, lower_idemp. }
  rewrite not_elem_of_union, not_elem_of_singleton. tauto.
Qed.

(** X6.  Enlarging the vocabulary never makes a token misspelled: the
    misspelled tokens under the larger vocabulary are a subsequence of those
    under the smaller one. *)
Theorem misspellIdentify_vocab_monotone (v : gset string) doc :
  vocab self ⊆ v →
  (misspellIdentify (with_vocab v self) doc).1
    `sublist_of` (misspellIdentify self doc).1.
Proof.
  intros Hsub. rewrite !misspellIdentify_filter. cbn [fst].
  apply filter_sublist_impl. intros token. unfold Misspelled.
  cbn [vocab with_vocab]. intros (Hv & ?). split; [|done].
  intros Hin. apply Hv. by apply Hsub.
Qed.
End identify_more.

Lemma misspellIdentify_cased_word_dead_witness :
  lower "Milion" ≠ "Milion"
  ∧ misspellIdentify
      (with_vocab ({["Milion"]} ∪ vocab Example.checker) Example.checker)
      Example.income
    = misspellIdentify Example.checker Example.income.
Proof.
  split; [by vm_compute|].
  apply (misspellIdentify_cased_word_dead Example.checker "Milion").
  by vm_compute.
Defined.

Lemma misspellIdentify_vocab_monotone_witness :
  vocab Example.checker ⊆ {["milion"]} ∪ vocab Example.checker
  ∧ (misspellIdentify
       (with_vocab ({["milion"]} ∪ vocab Example.checker) Example.checker)
       Example.income).1
    `sublist_of` (misspellIdentify Example.checker Example.income).1.
Proof.
  split; [apply union_subseteq_r|].
  apply (misspellIdentify_vocab_monotone Example.checker).
  apply union_subseteq_r.
Defined.

(** ** More on [candidateGenerator] *)

Section generator_more.
Context (self : ContextualSpellCheck) (doc : Doc.t).
Implicit Types (token : Token.t) (tr : list Event).

Lemma fst_zip_with_pair {A B C D} (f : A → C) (g : B → D) (l : list A) :
  ∀ k : list B, length l ≤ length k →
    (zip_with (fun x y => (f x, g y)) l k).*1 = f <$> l.
Proof.
  induction l as [|x l IH]; intros [|y k] Hlen; cbn in *; try done; [lia|].
  rewrite IH; [done|lia].
Qed.

Lemma token_candidates_scores top_n token :
  topk_contract self top_n →
  strings_of (token_scores self doc top_n token)
  = token_candidates self doc top_n token.
Proof.
  intros Hk. unfold strings_of, token_scores, token_candidates.
  destruct (Hk (maskedQuery self doc token)) as [Hids Hscs].
  apply fst_zip_with_pair. lia.
Qed.

Lemma collect_fmap {A B} (f : A → B) (entry : Token.t → A)
    (misspellings : list Token.t) :
  f <$> collect entry misspellings = collect (f ∘ entry) misspellings.
Proof.
  apply map_eq. intros token. rewrite lookup_fmap, !collect_lookup.
  by destruct (decide (token ∈ misspellings)).
Qed.

(** X7.  After [candidateGenerator] has run on at least one token (with a
    model answering [top_n] entries), the suggestion getter of the document
    returns the very dict [candidateGenerator] returned; its keys are the
    given tokens and each of its lists has [top_n] candidates. *)
Theorem candidateGenerator_suggestions top_n misspellings tr :
  topk_contract self top_n → misspellings ≠ [] →
  ∃ response doc' tr',
    candidateGenerator self doc misspellings top_n tr
      = (Ok (response, doc'), tr')
    ∧ doc_suggestions_spellCheck doc' = response
    ∧ dom response = list_to_set misspellings
    ∧ ∀ token candidates,
        response !! token = Some candidates → length candidates = top_n.
Proof.
  intros Hk Hne. rewrite candidateGenerator_Ok by done.
  destruct misspellings as [|t ms]; [done|]. cbn [length Nat.eqb negb].
  eexists _, _, _. split; [done|]. split_and!.
  - unfold doc_suggestions_spellCheck, Doc.set_score_spellCheck.
    cbn [Doc.score_spellCheck].
    rewrite suggestions_fold, collect_fmap.
    apply map_eq. intros token. rewrite !collect_lookup.
    destruct (decide (token ∈ t :: ms)); [|done].
    cbn. by rewrite token_candidates_scores.
  - apply dom_collect.
  - intros token candidates. rewrite collect_lookup.
    destruct (decide (token ∈ t :: ms)); [|done]. intros [= <-].
    unfold token_candidates. rewrite length_fmap.
    by destruct (Hk (maskedQuery self doc token)).
Qed.

(** X8.  Masking is undone by writing the word back: with the text of the
    token as the mask, the masked rendering is the source text of the
    document, whitespace included. *)
Theorem maskedQuery_unmask token :
  Doc.wf doc → token ∈ Doc.tokens doc →
  maskedQuery (with_mask (Token.text token) self) doc token = doc_text doc.
Proof.
  intros Hwf Hin. rewrite maskedQuery_join. unfold doc_text. f_equal.
  apply list_fmap_ext. intros k i Hk. unfold masked_piece.
  cbn [mask with_mask].
  destruct (Nat.eqb_spec (Token.i i) (Token.i token)) as [E|]; [|done].
  rewrite (wf_index_inj doc Hwf i token); [done| |done|done].
  by eapply list_elem_of_lookup_2.
Qed.

(** X9.  For a token whose index is the index of no token of the document,
    the rendering contains no mask: it is the source text itself. *)
Theorem maskedQuery_absent token :
  (∀ i, i ∈ Doc.tokens doc → Token.i i ≠ Token.i token) →
  maskedQuery self doc token = doc_text doc.
Proof.
  intros H. rewrite maskedQuery_join. unfold doc_text.
  by rewrite masked_piece_other.
Qed.
End generator_more.

Lemma candidateGenerator_suggestions_witness :
  topk_contract Example.checker 10
  ∧ [milion2; milion9] ≠ []
  ∧ ∃ response doc' tr',
      candidateGenerator Example.checker Example.income [milion2; milion9] 10 []
        = (Ok (response, doc'), tr')
      ∧ doc_suggestions_spellCheck doc' = response
      ∧ dom response = list_to_set [milion2; milion9]
      ∧ ∀ token candidates,
          response !! token = Some candidates → length candidates = 10.
Proof.
  split; [exact (checker_topk 10)|]. split; [discriminate|].
  apply (candidateGenerator_suggestions Example.checker Example.income 10).
  - exact (checker_topk 10).
  - discriminate.
Defined.

Lemma maskedQuery_unmask_witness :
  Doc.wf Example.income
  ∧ milion2 ∈ Doc.tokens Example.income
  ∧ maskedQuery (with_mask (Token.text milion2) Example.checker)
      Example.income milion2
    = doc_text Example.income.
Proof.
  assert (milion2 ∈ Doc.tokens Example.income) as Hin.
  { apply list_elem_of_lookup. by exists 2. }
  split; [exact income_wf|]. split; [exact Hin|].
  apply (maskedQuery_unmask Example.checker Example.income milion2);
    [exact income_wf|exact Hin].
Defined.

Lemma maskedQuery_absent_witness :
  (∀ i, i ∈ Doc.tokens Example.clean → Token.i i ≠ Token.i milion9)
  ∧ maskedQuery Example.checker Example.clean milion9
    = doc_text Example.clean.
Proof.
  assert (∀ i, i ∈ Doc.tokens Example.clean → Token.i i ≠ Token.i milion9)
    as Habsent.
  { apply Forall_forall. apply (bool_decide_unpack _). by vm_compute. }
  split; [exact Habsent|].
  apply (maskedQuery_absent Example.checker Example.clean milion9 Habsent).
Defined.

(** ** More on [__call__] and [check] *)

Section loops.
Lemma for_each_ext {A B} (l : list A) (body1 body2 : B → A → M B) : ∀ acc tr,
  (∀ x acc tr, x ∈ l → body1 acc x tr = body2 acc x tr) →
  for_each l acc body1 tr = for_each l acc body2 tr.
Proof.
  induction l as [|x l IH]; intros acc tr Hext; [done|].
  cbn [for_each]. unfold mbind, M_bind.
  rewrite Hext by (by left).
  destruct (body2 acc x tr) as [[acc'|e] tr1]; [|done].
  apply IH. intros y acc0 tr0 Hy. apply Hext. by right.
Qed.

(** The assembly loops make no collaborator call, and the only exception
    they raise is [KeyError]. *)
Lemma assemble_loop_quiet (inside : Token.t → bool)
    (answer : gmap Token.t string) (l : list Token.t) : ∀ acc tr,
  let run :=
    for_each l acc
      (fun updatedQuery i =>
         if inside i then
           replacement ← getitem answer i;
           mret (updatedQuery +:+ (replacement +:+ Token.whitespace_ i))
         else mret (updatedQuery +:+ Token.text_with_ws i)) tr in
  run.2 = tr ∧ ∀ e, run.1 = Raise e → e = KeyError.
Proof.
  induction l as [|i l IH]; intros acc tr; cbn [for_each]; [done|].
  unfold mbind at 1, M_bind at 1.
  destruct (inside i).
  - unfold getitem, mbind, M_bind. destruct (answer !! i) as [r|]; cbn.
    + apply IH.
    + split; [done|]. by intros e [= <-].
  - cbn. apply IH.
Qed.
End loops.

Section call_more.
Context (self : ContextualSpellCheck).
Implicit Types (doc : Doc.t) (token : Token.t) (tr : list Event).

(** X10.  With a model answering ten entries, whether [__call__] returns
    or raises: it has made exactly one inference call per misspelled token,
    in document order, each on the masked rendering of that token; the only
    exception it raises is [KeyError]; and when it returns, the token
    sequence is the one it was given, the document is untouched if nothing
    was misspelled, and otherwise carries the "performed" flag and the score
    map of the misspelled tokens. *)
Theorem call_effects doc tr :
  topk_contract self 10 →
  (__call__ self doc tr).2
    = tr ++ ((fun token => Inference (maskedQuery self doc token) 10)
               <$> (misspellIdentify self doc).1)
  ∧ (∀ e, (__call__ self doc tr).1 = Raise e → e = KeyError)
  ∧ ∀ doc', (__call__ self doc tr).1 = Ok doc' →
      Doc.tokens doc' = Doc.tokens doc
      ∧ ((misspellIdentify self doc).1 = [] → doc' = doc)
      ∧ ((misspellIdentify self doc).1 ≠ [] →
           Doc.performed_spellCheck doc' = true
           ∧ Doc.score_spellCheck doc'
             = Some (collect (token_scores self doc 10)
                       (misspellIdentify self doc).1)).
Proof.
  intros Hk. unfold __call__. rewrite misspellIdentify_filter. cbn [fst].
  set (ms := filter (Misspelled self) (Doc.tokens doc)).
  destruct ms as [|t ms'] eqn:Hms.
  { cbn. rewrite app_nil_r. split_and!; [done|done|].
    by intros doc' [= <-]. }
  rewrite <- Hms. assert ((0 <? length ms)%nat = true) as ->.
  { by rewrite Hms. }
  erewrite bind_Ok by (by apply candidateGenerator_Ok). cbv beta iota.
  assert (negb (length ms =? 0)%nat = true) as -> by (by rewrite Hms).
  unfold mbind, M_bind, assemble_call.
  set (doc1 := Doc.set_score_spellCheck _ _).
  pose proof (assemble_loop_quiet
    (fun i => bool_decide (Token.i i ∈ Token.i <$> ms))
    (candidateRanking (collect (token_candidates self doc 10) ms))
    (Doc.tokens doc1) ""
    (tr ++ ((fun token => Inference (maskedQuery self doc token) 10) <$> ms)))
    as [Htr Hexn].
  cbv zeta in Htr, Hexn.
  destruct (for_each _ _ _ _) as [[updatedQuery|e] tr1]; cbn [fst snd] in *.
  - subst tr1. split_and!; [done|done|].
    intros doc' [= <-]. split_and!; [done| |done].
    intros E. by rewrite Hms in E.
  - subst tr1. split_and!; [done| |done]. intros e' [= <-]. by apply Hexn.
Qed.


(** Under the contract of the model, the replacement of a misspelled token
    is the first closest of its own candidates. *)
Lemma call_answer_lookup doc token :
  token ∈ (misspellIdentify self doc).1 →
  candidateRanking
    (collect (token_candidates self doc 10) (misspellIdentify self doc).1)
    !! token
  = first_closest (Token.text token) 100 (token_candidates self doc 10 token).
Proof.
  intros Hin. rewrite candidateRanking_lookup, collect_lookup.
  by rewrite decide_True.
Qed.

Lemma call_Ok_of_ranked doc tr :
  topk_contract self 10 → Doc.wf doc →
  (∀ token, token ∈ (misspellIdentify self doc).1 →
     is_Some (first_closest (Token.text token) 100
                (token_candidates self doc 10 token))) →
  ∃ doc', (__call__ self doc tr).1 = Ok doc'.
Proof.
  intros Hk Hwf Hall.
  destruct ((misspellIdentify self doc).1) as [|t ms] eqn:Hms.
  - exists doc. unfold __call__.
    destruct (misspellIdentify self doc) as [ms doc0] eqn:E.
    rewrite misspellIdentify_filter in E. injection E as <- <-.
    cbn in Hms. by rewrite Hms.
  - eexists. erewrite call_assembles_corrected_text;
      [done|done|by rewrite Hms|by apply candidateGenerator_Ok|].
    intros token Hin. rewrite call_answer_lookup by done.
    apply Hall. by rewrite <- Hms.
Qed.

Lemma call_KeyError_of_unranked doc tr token :
  topk_contract self 10 →
  token ∈ (misspellIdentify self doc).1 →
  first_closest (Token.text token) 100 (token_candidates self doc 10 token)
    = None →
  (__call__ self doc tr).1 = Raise KeyError.
Proof.
  intros Hk Hin Hnone.
  erewrite call_KeyError; [done|by apply candidateGenerator_Ok|done|].
  by rewrite call_answer_lookup.
Qed.

(** What the document looks like when [__call__] has returned. *)
Lemma call_Ok_inv doc tr doc' tr' :
  topk_contract self 10 → Doc.wf doc →
  __call__ self doc tr = (Ok doc', tr') →
  Doc.tokens doc' = Doc.tokens doc
  ∧ ((misspellIdentify self doc).1 = [] → doc' = doc)
  ∧ ((misspellIdentify self doc).1 ≠ [] →
       Doc.score_spellCheck doc'
       = Some (collect (token_scores self doc 10)
                 (misspellIdentify self doc).1)).
Proof.
  intros Hk Hwf Hcall.
  destruct (decide ((misspellIdentify self doc).1 = [])) as [Hms|Hne].
  - unfold __call__ in Hcall. rewrite misspellIdentify_filter in *.
    cbn [fst] in *. rewrite Hms in Hcall. injection Hcall as <- _. done.
  - erewrite call_assembles_corrected_text in Hcall;
      [|done|done|by apply candidateGenerator_Ok|]; last first.
    { intros token Hin. rewrite call_answer_lookup by done.
      destruct (first_closest _ _ _) eqn:E; [done|].
      pose proof (call_KeyError_of_unranked doc tr token Hk Hin E) as Hraise.
      by rewrite Hcall in Hraise. }
    set (ms := (misspellIdentify self doc).1) in *. clearbody ms.
    injection Hcall as <- _.
    destruct ms as [|t ms]; [done|].
    cbn [length Nat.eqb negb]. split_and!; [done|by intros [=]|done].
Qed.

(** X11.  With a model answering ten entries, [__call__] returns on a
    document exactly when every misspelled token has, among the ten
    candidates proposed for it, one at edit distance less than 100 from its
    text; otherwise it raises. *)
Theorem call_returns_iff doc tr :
  topk_contract self 10 → Doc.wf doc →
  (∃ doc', (__call__ self doc tr).1 = Ok doc')
  ↔ ∀ token, token ∈ (misspellIdentify self doc).1 →
      ∃ c, c ∈ token_candidates self doc 10 token
           ∧ editdistance.eval (Token.text token) c < 100.
Proof.
  intros Hk Hwf. split.
  - intros [doc' Hok] token Hin. apply first_closest_is_Some.
    destruct (first_closest _ _ _) eqn:E; [done|].
    by rewrite (call_KeyError_of_unranked doc tr token) in Hok.
  - intros Hall. apply call_Ok_of_ranked; [done..|].
    intros token Hin. by apply first_closest_is_Some, Hall.
Qed.

(** X12.  When every misspelled token has a candidate at edit distance
    less than 100, the outcome [__call__] stores is the concatenation, in
    document order, of one piece per token: the first closest candidate of a
    misspelled token, the own text of any other token, followed in both
    cases by the token's own trailing whitespace. *)
Theorem call_outcome doc tr :
  topk_contract self 10 → Doc.wf doc →
  (misspellIdentify self doc).1 ≠ [] →
  (∀ token, token ∈ (misspellIdentify self doc).1 →
     ∃ c, c ∈ token_candidates self doc 10 token
          ∧ editdistance.eval (Token.text token) c < 100) →
  ∃ doc',
    (__call__ self doc tr).1 = Ok doc'
    ∧ Doc.outcome_spellCheck doc'
      = join ((fun token =>
                 default (Token.text token) (replacement_of self doc token)
                 +:+ Token.whitespace_ token) <$> Doc.tokens doc).
Proof.
  intros Hk Hwf Hne Hall. eexists.
  erewrite call_assembles_corrected_text;
    [|done|done|by apply candidateGenerator_Ok|]; last first.
  { intros token Hin. rewrite call_answer_lookup by done.
    apply first_closest_is_Some. by apply Hall. }
  split; [done|]. unfold Doc.set_outcome_spellCheck.
  cbn [fst Doc.outcome_spellCheck]. f_equal.
  apply list_fmap_ext. intros k token Hk'.
  unfold corrected_piece, replacement_of.
  rewrite candidateRanking_lookup, collect_lookup.
  rewrite misspellIdentify_filter. cbn [fst].
  destruct (decide (Misspelled self token)) as [Hm|Hm].
  - rewrite decide_True.
    + cbn. by destruct (first_closest _ _ _).
    + apply list_elem_of_filter. split; [done|by eapply list_elem_of_lookup_2].
  - rewrite decide_False; [done|].
    by intros [? _]%list_elem_of_filter.
Qed.

(** X13.  [__call__] returns whenever every misspelled token has fewer
    than 100 characters and a proposed candidate of fewer than 100
    characters. *)
Theorem call_returns_on_short_tokens doc tr :
  topk_contract self 10 → Doc.wf doc →
  (∀ token, token ∈ (misspellIdentify self doc).1 →
     String.length (Token.text token) < 100
     ∧ ∃ c, c ∈ token_candidates self doc 10 token ∧ String.length c < 100) →
  ∃ doc', (__call__ self doc tr).1 = Ok doc'.
Proof.
  intros Hk Hwf Hall. apply call_Ok_of_ranked; [done..|].
  intros token Hin. destruct (Hall token Hin) as (Hlen & c & Hc & Hclen).
  apply first_closest_is_Some. exists c. split; [done|].
  destruct (eval_between (Token.text token) c) as (_ & _ & Hub). lia.
Qed.

(** X14.  [__call__] raises [KeyError] on every document with a
    misspelled token that is 100 characters or more longer than each of the
    ten candidates proposed for it. *)
Theorem call_raises_on_long_token doc tr token :
  topk_contract self 10 →
  token ∈ (misspellIdentify self doc).1 →
  (∀ c, c ∈ token_candidates self doc 10 token →
     String.length c + 100 ≤ String.length (Token.text token)) →
  (__call__ self doc tr).1 = Raise KeyError.
Proof.
  intros Hk Hin Hall.
  apply (call_KeyError_of_unranked doc tr token); [done..|].
  destruct (first_closest _ _ _) as [r|] eqn:E; [|done].
  assert (is_Some (first_closest (Token.text token) 100
                     (token_candidates self doc 10 token))) as Hs
    by (by rewrite E).
  apply first_closest_is_Some in Hs as (c & Hc & Hlt).
  destruct (eval_between (Token.text token) c) as (Hlb & _ & _).
  specialize (Hall c Hc). lia.
Qed.
End call_more.

Section check_more.
Context (nlp : string → list Token.t) (self : ContextualSpellCheck).

Lemma check_str s tr :
  check nlp self (PyStr s) tr =
    (let '(misspellTokens, doc) := misspellIdentify self (Doc.fresh (nlp s)) in
     if (0 <? length misspellTokens)%nat then
       '(candidate, doc) ← candidateGenerator self doc misspellTokens 10;
       let answer := candidateRanking candidate in
       updatedQuery ← assemble_check doc misspellTokens answer;
       mret (Checked updatedQuery
               (Doc.set_outcome_spellCheck updatedQuery doc))
     else mret (Checked "" doc)) (tr ++ [SpacyParse s]).
Proof. done. Qed.

(** X15.  On a string, [check] is [__call__] on the freshly parsed
    document: it returns the outcome [__call__] stores together with the
    document [__call__] returns, raises what [__call__] raises, and makes the
    same calls after the parse. *)
Theorem check_agrees_with_call s tr :
  Doc.wf (Doc.fresh (nlp s)) →
  check nlp self (PyStr s) tr =
    match __call__ self (Doc.fresh (nlp s)) (tr ++ [SpacyParse s]) with
    | (Ok doc, tr') => (Ok (Checked (Doc.outcome_spellCheck doc) doc), tr')
    | (Raise e, tr') => (Raise e, tr')
    end.
Proof.
  intros Hwf. rewrite check_str. unfold __call__.
  rewrite misspellIdentify_filter.
  set (doc := Doc.fresh (nlp s)) in *.
  set (ms := filter (Misspelled self) (Doc.tokens doc)).
  destruct (0 <? length ms)%nat; [|done].
  unfold mbind, M_bind.
  destruct (candidateGenerator self doc ms 10 (tr ++ [SpacyParse s]))
    as [[[candidate doc1]|e] tr1] eqn:Hgen; [|done].
  destruct (candidateGenerator_inv _ _ _ _ _ _ _ _ Hgen) as [Htoks _].
  assert (assemble_check doc1 ms (candidateRanking candidate) tr1
          = assemble_call doc1 ms (candidateRanking candidate) tr1) as ->.
  { unfold assemble_check, assemble_call. apply for_each_ext.
    intros i acc tr0 Hi. rewrite Htoks in Hi.
    assert (bool_decide (i ∈ ms)
            = bool_decide (Token.i i ∈ Token.i <$> ms)) as ->; [|done].
    apply bool_decide_ext. symmetry. apply (wf_index_elem doc Hwf); [|done].
    intros t Ht. by apply list_elem_of_filter in Ht as [_ ?]. }
  by destruct (assemble_call _ _ _ _) as [[updatedQuery|e] tr2].
Qed.

(** X16.  [check] returns the invalid-query pair for the empty list and
    for no other query: never for a string, empty or not; and when it does,
    it has called no collaborator. *)
Theorem check_invalid_iff query tr message q tr' :
  check nlp self query tr = (Ok (InvalidQuery message q), tr')
  ↔ query = PyList []
    ∧ q = PyList []
    ∧ message = "Invalid query, expected non empty `str` but passed"
    ∧ tr' = tr.
Proof.
  split.
  - destruct query as [|z|s|[|x l]]; try done.
    + rewrite check_str.
      destruct (misspellIdentify self (Doc.fresh (nlp s))) as [ms doc].
      destruct (0 <? length ms)%nat; [|done].
      unfold mbind, M_bind.
      destruct (candidateGenerator _ _ _ _ _) as [[[candidate doc1]|e] tr1];
        [|done].
      by destruct (assemble_check _ _ _ _) as [[updatedQuery|e] tr2].
    + by intros [= <- <- <-].
  - by intros (-> & -> & -> & ->).
Qed.
End check_more.

Lemma income_misspelled :
  (misspellIdentify Example.checker Example.income).1 = [milion2; milion9].
Proof. by vm_compute. Qed.

Lemma checker_candidates doc token :
  token_candidates Example.checker doc 10 token = Example.words.
Proof. reflexivity. Qed.

Lemma income_ranked token :
  token ∈ (misspellIdentify Example.checker Example.income).1 →
  ∃ c, c ∈ token_candidates Example.checker Example.income 10 token
       ∧ editdistance.eval (Token.text token) c < 100.
Proof.
  rewrite income_misspelled, checker_candidates. intros Hin.
  exists "million". split; [apply list_elem_of_here|].
  apply elem_of_cons in Hin as [->|Hin]; [vm_compute; lia|].
  apply elem_of_cons in Hin as [->|Hin]; [vm_compute; lia|].
  by apply elem_of_nil in Hin.
Qed.

Lemma income_short token :
  token ∈ (misspellIdentify Example.checker Example.income).1 →
  String.length (Token.text token) < 100
  ∧ ∃ c, c ∈ token_candidates Example.checker Example.income 10 token
         ∧ String.length c < 100.
Proof.
  rewrite income_misspelled, checker_candidates. intros Hin. split.
  - apply elem_of_cons in Hin as [->|Hin]; [vm_compute; lia|].
    apply elem_of_cons in Hin as [->|Hin]; [vm_compute; lia|].
    by apply elem_of_nil in Hin.
  - exists "million". split; [apply list_elem_of_here|vm_compute; lia].
Qed.

Lemma long_doc_misspelled :
  Example.long_token ∈ (misspellIdentify Example.checker Example.long_doc).1.
Proof.
  assert ((misspellIdentify Example.checker Example.long_doc).1
          = [Example.long_token]) as -> by (by vm_compute).
  apply list_elem_of_here.
Qed.

Lemma long_token_candidates c :
  c ∈ token_candidates Example.checker Example.long_doc 10 Example.long_token →
  String.length c + 100 ≤ String.length (Token.text Example.long_token).
Proof.
  rewrite checker_candidates. revert c. apply Forall_forall.
  apply (bool_decide_unpack _). by vm_compute.
Qed.

Lemma call_effects_witness :
  topk_contract Example.checker 10
  ∧ (__call__ Example.checker Example.income []).2
    = [] ++ ((fun token =>
                Inference (maskedQuery Example.checker Example.income token) 10)
               <$> (misspellIdentify Example.checker Example.income).1)
  ∧ (∀ e, (__call__ Example.checker Example.income []).1 = Raise e →
          e = KeyError)
  ∧ ∀ doc', (__call__ Example.checker Example.income []).1 = Ok doc' →
      Doc.tokens doc' = Doc.tokens Example.income
      ∧ ((misspellIdentify Example.checker Example.income).1 = [] →
         doc' = Example.income)
      ∧ ((misspellIdentify Example.checker Example.income).1 ≠ [] →
           Doc.performed_spellCheck doc' = true
           ∧ Doc.score_spellCheck doc'
             = Some (collect (token_scores Example.checker Example.income 10)
                       (misspellIdentify Example.checker Example.income).1)).
Proof.
  split; [exact (checker_topk 10)|].
  exact (call_effects Example.checker Example.income [] (checker_topk 10)).
Defined.

Lemma call_returns_iff_witness :
  topk_contract Example.checker 10
  ∧ Doc.wf Example.income
  ∧ ((∃ doc', (__call__ Example.checker Example.income []).1 = Ok doc')
     ↔ ∀ token,
         token ∈ (misspellIdentify Example.checker Example.income).1 →
         ∃ c, c ∈ token_candidates Example.checker Example.income 10 token
              ∧ editdistance.eval (Token.text token) c < 100).
Proof.
  split; [exact (checker_topk 10)|]. split; [exact income_wf|].
  exact (call_returns_iff Example.checker Example.income []
           (checker_topk 10) income_wf).
Defined.

Lemma call_outcome_witness :
  topk_contract Example.checker 10
  ∧ Doc.wf Example.income
  ∧ (misspellIdentify Example.checker Example.income).1 ≠ []
  ∧ ∃ doc',
      (__call__ Example.checker Example.income []).1 = Ok doc'
      ∧ Doc.outcome_spellCheck doc'
        = join ((fun token =>
                   default (Token.text token)
                     (replacement_of Example.checker Example.income token)
                   +:+ Token.whitespace_ token)
                  <$> Doc.tokens Example.income).
Proof.
  assert ((misspellIdentify Example.checker Example.income).1 ≠ []) as Hne
    by (by rewrite income_misspelled).
  split; [exact (checker_topk 10)|]. split; [exact income_wf|].
  split; [exact Hne|].
  exact (call_outcome Example.checker Example.income []
           (checker_topk 10) income_wf Hne income_ranked).
Defined.

Lemma call_returns_on_short_tokens_witness :
  topk_contract Example.checker 10
  ∧ Doc.wf Example.income
  ∧ ∃ doc', (__call__ Example.checker Example.income []).1 = Ok doc'.
Proof.
  split; [exact (checker_topk 10)|]. split; [exact income_wf|].
  exact (call_returns_on_short_tokens Example.checker Example.income []
           (checker_topk 10) income_wf income_short).
Defined.

Lemma call_raises_on_long_token_witness :
  topk_contract Example.checker 10
  ∧ Example.long_token
      ∈ (misspellIdentify Example.checker Example.long_doc).1
  ∧ (__call__ Example.checker Example.long_doc []).1 = Raise KeyError.
Proof.
  split; [exact (checker_topk 10)|]. split; [exact long_doc_misspelled|].
  exact (call_raises_on_long_token Example.checker Example.long_doc []
           Example.long_token (checker_topk 10) long_doc_misspelled
           long_token_candidates).
Defined.

Lemma check_agrees_with_call_witness :
  Doc.wf (Doc.fresh (Example.stub_nlp "Income was milion"))
  ∧ check Example.stub_nlp Example.checker (PyStr "Income was milion") [] =
      match __call__ Example.checker
              (Doc.fresh (Example.stub_nlp "Income was milion"))
              ([] ++ [SpacyParse "Income was milion"]) with
      | (Ok doc, tr') => (Ok (Checked (Doc.outcome_spellCheck doc) doc), tr')
      | (Raise e, tr') => (Raise e, tr')
      end.
Proof.
  assert (Doc.wf (Doc.fresh (Example.stub_nlp "Income was milion"))) as Hwf
    by (by vm_compute).
  split; [exact Hwf|].
  exact (check_agrees_with_call Example.stub_nlp Example.checker
           "Income was milion" [] Hwf).
Defined.

(** ** The token and span getters *)

Section getters.
Implicit Types (doc : Doc.t) (token : Token.t) (tr : list Event).

Lemma existsb_id_fmap {A} (f : A → bool) (l : list A) :
  existsb (fun b => b) (f <$> l) = existsb f l.
Proof. induction l as [|x l IH]; [done|]. cbn. by rewrite IH. Qed.

Lemma return_at_index_existsb {A} (keys : list Token.t)
    (d : gmap Token.t (list A)) token tr :
  return_at_index keys d token tr =
    if existsb (fun k => (Token.i token =? Token.i k)%nat) keys
    then getitem d token tr else (Ok [], tr).
Proof.
  induction keys as [|k keys IH]; [done|]. cbn.
  by destruct (Token.i token =? Token.i k)%nat.
Qed.

Lemma elem_of_keys {A} (d : gmap Token.t A) k :
  k ∈ (map_to_list d).*1 ↔ is_Some (d !! k).
Proof.
  rewrite list_elem_of_fmap. split.
  - intros ([k' v] & -> & Hin%elem_of_map_to_list). by exists v.
  - intros [v Hv]. exists (k, v). by rewrite elem_of_map_to_list.
Qed.

Lemma existsb_index_keys {A} (d : gmap Token.t A) token :
  existsb (fun k => (Token.i token =? Token.i k)%nat) (map_to_list d).*1 = true
  ↔ ∃ k, is_Some (d !! k) ∧ Token.i k = Token.i token.
Proof.
  rewrite existsb_exists. split.
  - intros (k & Hin%list_elem_of_In%elem_of_keys & E%Nat.eqb_eq). by exists k.
  - intros (k & Hk & E). exists k.
    split; [by apply list_elem_of_In, elem_of_keys|by apply Nat.eqb_eq].
Qed.

Lemma keys_fmap {A B} (f : A → B) (d : gmap Token.t A) :
  (map_to_list (f <$> d)).*1 = (map_to_list d).*1.
Proof.
  rewrite map_to_list_fmap, <- list_fmap_compose.
  apply list_fmap_ext. by intros ? [? ?].
Qed.

Lemma doc_suggestions_eq doc :
  doc_suggestions_spellCheck doc =
    match Doc.score_spellCheck doc with
    | None => ∅
    | Some score => strings_of <$> score
    end.
Proof.
  unfold doc_suggestions_spellCheck.
  destruct (Doc.score_spellCheck doc); [apply suggestions_fold|done].
Qed.

Lemma getitem_fmap {A B} (f : A → B) (d : gmap Token.t A) token tr :
  getitem (f <$> d) token tr = (Res_map f (getitem d token tr).1, tr).
Proof. unfold getitem. rewrite lookup_fmap. by destruct (d !! token). Qed.

(** X17.  [token_require_spellCheck] answers true exactly when the score
    map of the document is set and has a key with the index of the token. *)
Theorem token_require_iff doc token :
  token_require_spellCheck doc token = true
  ↔ ∃ score k,
      Doc.score_spellCheck doc = Some score
      ∧ is_Some (score !! k)
      ∧ Token.i k = Token.i token.
Proof.
  unfold token_require_spellCheck.
  rewrite existsb_id_fmap, doc_suggestions_eq.
  destruct (Doc.score_spellCheck doc) as [score|].
  - rewrite keys_fmap, existsb_index_keys. split.
    + intros (k & ? & ?). by exists score, k.
    + intros (? & k & [= <-] & ? & ?). by exists k.
  - rewrite map_to_list_empty. split; [done|by intros (? & ? & ? & _)].
Qed.

(** X18.  For every document and token, [token_suggestion_spellCheck]
    gives what [token_score_spellCheck] gives with the scores dropped: the
    same exception if that one raises, the candidate strings of its pairs, in
    the same order, if it returns.  Neither calls a collaborator. *)
Theorem token_suggestion_drops_scores doc token tr :
  token_suggestion_spellCheck doc token tr
  = (Res_map strings_of (token_score_spellCheck doc token tr).1, tr)
  ∧ (token_score_spellCheck doc token tr).2 = tr.
Proof.
  unfold token_suggestion_spellCheck, token_score_spellCheck.
  rewrite doc_suggestions_eq.
  destruct (Doc.score_spellCheck doc) as [score|].
  - rewrite keys_fmap, !return_at_index_existsb.
    destruct (existsb _ _); [|done].
    rewrite getitem_fmap. split; [done|].
    unfold getitem. by destruct (score !! token).
  - by rewrite map_to_list_empty.
Qed.

Lemma token_score_annotated doc token tr :
  annotated doc → token ∈ Doc.tokens doc →
  token_score_spellCheck doc token tr = (Ok (scores_of doc token), tr).
Proof.
  intros [Hwf Hkeys] Hin. unfold token_score_spellCheck, scores_of.
  destruct (Doc.score_spellCheck doc) as [score|] eqn:Hs; [|done].
  rewrite return_at_index_existsb. cbn.
  destruct (existsb _ _) eqn:E.
  - apply existsb_index_keys in E as (k & Hk & Hi).
    assert (k ∈ Doc.tokens doc) as Hin_k by (by eapply Hkeys).
    rewrite (wf_index_inj doc Hwf k token Hin_k Hin Hi) in Hk.
    destruct Hk as [v Hv]. unfold getitem. by rewrite Hv.
  - destruct (score !! token) as [v|] eqn:Hv; [|done].
    assert (existsb (fun k => (Token.i token =? Token.i k)%nat)
              (map_to_list score).*1 = true) as E'; [|congruence].
    apply existsb_index_keys. exists token. by rewrite Hv.
Qed.

Lemma token_require_annotated doc token :
  annotated doc → token ∈ Doc.tokens doc →
  token_require_spellCheck doc token
  = bool_decide (is_Some (Doc.score_spellCheck doc
                            ≫= fun score => score !! token)).
Proof.
  intros [Hwf Hkeys] Hin.
  apply eq_true_iff_eq. rewrite bool_decide_eq_true.
  unfold token_require_spellCheck.
  rewrite existsb_id_fmap, doc_suggestions_eq.
  destruct (Doc.score_spellCheck doc) as [score|] eqn:Hs; cbn.
  - rewrite keys_fmap, existsb_index_keys. split.
    + intros (k & Hk & Hi).
      assert (k ∈ Doc.tokens doc) as Hin_k by (by eapply Hkeys).
      by rewrite (wf_index_inj doc Hwf k token Hin_k Hin Hi) in Hk.
    + intros Hk. by exists token.
  - rewrite map_to_list_empty. split; [done|by intros [? ?]].
Qed.

Lemma token_suggestion_annotated doc token tr :
  annotated doc → token ∈ Doc.tokens doc →
  token_suggestion_spellCheck doc token tr
  = (Ok (strings_of (scores_of doc token)), tr).
Proof.
  intros Hann Hin.
  unfold token_suggestion_spellCheck.
  pose proof (token_score_annotated doc token tr Hann Hin) as Hscore.
  unfold token_score_spellCheck in Hscore.
  rewrite doc_suggestions_eq.
  destruct (Doc.score_spellCheck doc) as [score|].
  - rewrite keys_fmap, return_at_index_existsb.
    rewrite return_at_index_existsb in Hscore.
    destruct (existsb _ _).
    + by rewrite getitem_fmap, Hscore.
    + by injection Hscore as <-.
  - rewrite map_to_list_empty. by injection Hscore as <-.
Qed.

(** X19.  On a document as the pipeline leaves it, and for a token of that
    document, the three token getters return: the flag is true exactly when
    the token is a key of the score map, the score getter gives the token's
    own score list (the empty list if it has none), and the suggestion getter
    gives the candidate strings of that list. *)
Theorem token_getters_on_annotated doc token :
  annotated doc → token ∈ Doc.tokens doc →
  token_require_spellCheck doc token
    = bool_decide (is_Some (Doc.score_spellCheck doc
                              ≫= fun score => score !! token))
  ∧ ∀ tr,
      token_score_spellCheck doc token tr = (Ok (scores_of doc token), tr)
      ∧ token_suggestion_spellCheck doc token tr
        = (Ok (strings_of (scores_of doc token)), tr).
Proof.
  intros Hann Hin. split; [by apply token_require_annotated|].
  intros tr. split.
  - by apply token_score_annotated.
  - by apply token_suggestion_annotated.
Qed.

Lemma span_score_from doc (span : list Token.t) :
  ∀ (acc : list (gmap Token.t (list (string * Q)))) tr,
  annotated doc → (∀ token, token ∈ span → token ∈ Doc.tokens doc) →
  for_each span acc
    (fun entries token =>
       scores ← token_score_spellCheck doc token;
       mret (entries ++ [{[ token := scores ]}])) tr
  = (Ok (acc ++ ((fun token =>
                    ({[ token := scores_of doc token ]}
                       : gmap Token.t (list (string * Q)))) <$> span)),
     tr).
Proof.
  induction span as [|token span IH]; intros acc tr Hann Hsub; cbn [for_each].
  - cbn. by rewrite app_nil_r.
  - erewrite bind_Ok; last first.
    { erewrite bind_Ok; [reflexivity|].
      apply token_score_annotated; [done|]. apply Hsub. by left. }
    rewrite IH; [|done|intros t Ht; apply Hsub; by right].
    by rewrite fmap_cons, <- app_assoc.
Qed.

(** X20.  On a document as the pipeline leaves it, and for a span of its
    tokens, [span_score_spellCheck] returns one singleton dict per token of
    the span, in order, holding the token's score list, and
    [span_require_spellCheck] is true exactly when some token of the span is
    a key of the score map. *)
Theorem span_getters_on_annotated doc (span : list Token.t) tr :
  annotated doc → (∀ token, token ∈ span → token ∈ Doc.tokens doc) →
  span_score_spellCheck doc span tr
    = (Ok ((fun token =>
              ({[ token := scores_of doc token ]}
                 : gmap Token.t (list (string * Q)))) <$> span), tr)
  ∧ (span_require_spellCheck doc span = true
     ↔ ∃ token, token ∈ span
                ∧ is_Some (Doc.score_spellCheck doc
                             ≫= fun score => score !! token)).
Proof.
  intros Hann Hsub. split.
  - unfold span_score_spellCheck. by rewrite span_score_from.
  - unfold span_require_spellCheck. rewrite existsb_id_fmap, existsb_exists.
    split.
    + intros (token & Hin%list_elem_of_In & Hreq). exists token. split; [done|].
      rewrite (token_require_annotated doc token Hann (Hsub _ Hin)) in Hreq.
      by apply bool_decide_eq_true in Hreq.
    + intros (token & Hin & Hsome). exists token.
      split; [by apply list_elem_of_In|].
      rewrite (token_require_annotated doc token Hann (Hsub _ Hin)).
      by apply bool_decide_eq_true.
Qed.

(** X21.  On a document whose score map is unset (no correction has run),
    every getter answers "nothing": the flags are false, the token getters
    return the empty list, and the span score getter returns one dict per
    token holding the empty list. *)
Theorem getters_unset doc token (span : list Token.t) tr :
  Doc.score_spellCheck doc = None →
  token_require_spellCheck doc token = false
  ∧ token_suggestion_spellCheck doc token tr = (Ok [], tr)
  ∧ token_score_spellCheck doc token tr = (Ok [], tr)
  ∧ span_require_spellCheck doc span = false
  ∧ span_score_spellCheck doc span tr
    = (Ok ((fun token => ({[ token := [] ]}
                            : gmap Token.t (list (string * Q)))) <$> span), tr).
Proof.
  intros Hnone.
  assert (∀ t, token_require_spellCheck doc t = false) as Hreq.
  { intros t. unfold token_require_spellCheck.
    by rewrite doc_suggestions_eq, Hnone, map_to_list_empty. }
  assert (∀ t tr0, token_score_spellCheck doc t tr0 = (Ok [], tr0)) as Hscore.
  { intros t tr0. unfold token_score_spellCheck. by rewrite Hnone. }
  split_and!; [done| |done| |].
  - unfold token_suggestion_spellCheck.
    by rewrite doc_suggestions_eq, Hnone, map_to_list_empty.
  - unfold span_require_spellCheck. rewrite existsb_id_fmap.
    induction span as [|t span IH]; [done|]. cbn. by rewrite Hreq.
  - unfold span_score_spellCheck.
    assert (∀ (acc : list (gmap Token.t (list (string * Q)))),
              for_each span acc
                (fun entries token =>
                   scores ← token_score_spellCheck doc token;
                   mret (entries ++ [{[ token := scores ]}])) tr
              = (Ok (acc ++ ((fun token =>
                                ({[ token := [] ]}
                                   : gmap Token.t (list (string * Q))))
                               <$> span)), tr)) as Hloop; [|apply Hloop].
    induction span as [|t span IH]; intros acc; cbn [for_each].
    + cbn. by rewrite app_nil_r.
    + erewrite bind_Ok; last first.
      { erewrite bind_Ok by apply Hscore. reflexivity. }
      rewrite IH. by rewrite fmap_cons, <- app_assoc.
Qed.

(** X22.  After [__call__] has returned on a document that carried no
    score map (with a model answering ten entries), the getters of each
    token of the document tell whether it was misspelled: the flag is true
    exactly for the misspelled tokens, and the score and suggestion getters
    give a misspelled token the ten (string, score) pairs, respectively the
    ten strings, proposed for it, and any other token the empty list. *)
Theorem getters_after_call (self : ContextualSpellCheck) doc tr doc' tr' token :
  topk_contract self 10 → Doc.wf doc →
  Doc.score_spellCheck doc = None →
  __call__ self doc tr = (Ok doc', tr') →
  token ∈ Doc.tokens doc →
  token_require_spellCheck doc' token = bool_decide (Misspelled self token)
  ∧ ∀ tr0,
      token_score_spellCheck doc' token tr0
      = (Ok (if decide (Misspelled self token)
             then token_scores self doc 10 token else []), tr0)
      ∧ token_suggestion_spellCheck doc' token tr0
        = (Ok (if decide (Misspelled self token)
               then token_candidates self doc 10 token else []), tr0).
Proof.
  intros Hk Hwf Hnone Hcall Hin.
  destruct (call_Ok_inv self doc tr doc' tr' Hk Hwf Hcall)
    as (Htoks & Hempty & Hsome).
  rewrite misspellIdentify_filter in Hempty, Hsome. cbn [fst] in *.
  set (ms := filter (Misspelled self) (Doc.tokens doc)) in *.
  assert (token ∈ ms ↔ Misspelled self token) as Hms.
  { unfold ms. rewrite list_elem_of_filter. tauto. }
  assert (Doc.score_spellCheck doc' ≫= (fun score => score !! token)
          = if decide (Misspelled self token)
            then Some (token_scores self doc 10 token) else None) as Hentry.
  { destruct ms as [|t ms'] eqn:E.
    - rewrite (Hempty eq_refl), Hnone. cbn.
      rewrite decide_False; [done|]. rewrite <- Hms. apply not_elem_of_nil.
    - rewrite Hsome by done. cbn -[collect].
      rewrite collect_lookup.
      destruct (decide (Misspelled self token)) as [Hm|Hm].
      + rewrite decide_True; [done|by apply Hms].
      + rewrite decide_False; [done|by rewrite Hms]. }
  assert (annotated doc') as Hann.
  { split; [unfold Doc.wf; by rewrite Htoks|].
    intros score t Hs. rewrite Htoks.
    destruct ms as [|t0 ms'] eqn:E.
    - by rewrite (Hempty eq_refl), Hnone in Hs.
    - rewrite Hsome in Hs by done.
      injection Hs as <-. rewrite collect_lookup.
      destruct (decide (t ∈ t0 :: ms')) as [Ht|]; [|by intros [? ?]].
      intros _. rewrite <- E in Ht. unfold ms in Ht.
      by apply list_elem_of_filter in Ht as [_ ?]. }
  assert (token ∈ Doc.tokens doc') as Hin' by (by rewrite Htoks).
  split.
  - rewrite (token_require_annotated doc' token Hann Hin'), Hentry.
    destruct (decide (Misspelled self token)).
    + by rewrite !bool_decide_eq_true_2.
    + rewrite !bool_decide_eq_false_2; [done|done|by intros [? ?]].
  - intros tr0.
    rewrite (token_score_annotated doc' token tr0 Hann Hin').
    rewrite (token_suggestion_annotated doc' token tr0 Hann Hin').
    unfold scores_of.
    rewrite Hentry. destruct (decide (Misspelled self token)); [|done].
    cbn -[strings_of token_scores token_candidates].
    by rewrite (token_candidates_scores self doc 10 token Hk).
Qed.
End getters.

Lemma income_annotated_ok : annotated income_annotated.
Proof.
  split; [reflexivity|]. intros score token Hs.
  change (Some income_scores = Some score) in Hs. injection Hs as <-.
  unfold income_scores. rewrite collect_lookup.
  destruct (decide (token ∈ [milion2; milion9])) as [Hin|]; [|by intros [? ?]].
  intros _. apply list_elem_of_lookup.
  apply elem_of_cons in Hin as [->|Hin]; [by exists 2|].
  apply elem_of_cons in Hin as [->|Hin]; [by exists 9|].
  by apply elem_of_nil in Hin.
Qed.

Lemma milion2_in_income : milion2 ∈ Doc.tokens income_annotated.
Proof. apply list_elem_of_lookup. by exists 2. Qed.

Lemma call_income_result :
  __call__ Example.checker Example.income []
  = (Ok income_corrected, income_calls).
Proof.
  assert ((misspellIdentify Example.checker Example.income).1 ≠ []) as Hne.
  { intros E. by rewrite income_misspelled in E. }
  pose proof (candidateGenerator_Ok Example.checker Example.income 10
                (misspellIdentify Example.checker Example.income).1 []
                (checker_topk 10)) as Hgen.
  rewrite (call_assembles_corrected_text Example.checker Example.income []
             _ _ _ income_wf Hne Hgen).
  - rewrite income_misspelled.
    assert (join (corrected_piece
                    (candidateRanking
                       (collect (token_candidates Example.checker
                                   Example.income 10) [milion2; milion9]))
                    <$> Doc.tokens Example.income)
            = "Income was million compared to the prior year of million.")
      as -> by (by vm_compute).
    assert ([] ++ ((fun token =>
                      Inference (maskedQuery Example.checker Example.income
                                   token) 10) <$> [milion2; milion9])
            = income_calls) as -> by (by vm_compute).
    reflexivity.
  - intros token Hin. rewrite call_answer_lookup by done.
    by apply first_closest_is_Some, income_ranked.
Qed.

Lemma token_getters_on_annotated_witness :
  annotated income_annotated
  ∧ milion2 ∈ Doc.tokens income_annotated
  ∧ token_require_spellCheck income_annotated milion2
    = bool_decide (is_Some (Doc.score_spellCheck income_annotated
                              ≫= fun score => score !! milion2))
  ∧ ∀ tr,
      token_score_spellCheck income_annotated milion2 tr
      = (Ok (scores_of income_annotated milion2), tr)
      ∧ token_suggestion_spellCheck income_annotated milion2 tr
        = (Ok (strings_of (scores_of income_annotated milion2)), tr).
Proof.
  split; [exact income_annotated_ok|]. split; [exact milion2_in_income|].
  exact (token_getters_on_annotated income_annotated milion2
           income_annotated_ok milion2_in_income).
Defined.

Lemma span_getters_on_annotated_witness :
  annotated income_annotated
  ∧ (∀ token, token ∈ [milion2] → token ∈ Doc.tokens income_annotated)
  ∧ span_score_spellCheck income_annotated [milion2] []
    = (Ok ((fun token =>
              ({[ token := scores_of income_annotated token ]}
                 : gmap Token.t (list (string * Q)))) <$> [milion2]), [])
  ∧ (span_require_spellCheck income_annotated [milion2] = true
     ↔ ∃ token, token ∈ [milion2]
                ∧ is_Some (Doc.score_spellCheck income_annotated
                             ≫= fun score => score !! token)).
Proof.
  assert (∀ token, token ∈ [milion2] → token ∈ Doc.tokens income_annotated)
    as Hsub.
  { intros token Hin. apply elem_of_cons in Hin as [->|Hin];
      [exact milion2_in_income|by apply elem_of_nil in Hin]. }
  split; [exact income_annotated_ok|]. split; [exact Hsub|].
  exact (span_getters_on_annotated income_annotated [milion2] []
           income_annotated_ok Hsub).
Defined.

Lemma getters_unset_witness :
  Doc.score_spellCheck Example.income = None
  ∧ token_require_spellCheck Example.income milion2 = false
  ∧ token_suggestion_spellCheck Example.income milion2 [] = (Ok [], [])
  ∧ token_score_spellCheck Example.income milion2 [] = (Ok [], [])
  ∧ span_require_spellCheck Example.income [milion2] = false
  ∧ span_score_spellCheck Example.income [milion2] []
    = (Ok ((fun token => ({[ token := [] ]}
                            : gmap Token.t (list (string * Q))))
             <$> [milion2]), []).
Proof.
  split; [reflexivity|].
  exact (getters_unset Example.income milion2 [milion2] [] eq_refl).
Defined.

Lemma getters_after_call_witness :
  topk_contract Example.checker 10
  ∧ Doc.wf Example.income
  ∧ Doc.score_spellCheck Example.income = None
  ∧ __call__ Example.checker Example.income []
    = (Ok income_corrected, income_calls)
  ∧ milion2 ∈ Doc.tokens Example.income
  ∧ token_require_spellCheck income_corrected milion2
    = bool_decide (Misspelled Example.checker milion2)
  ∧ ∀ tr0,
      token_score_spellCheck income_corrected milion2 tr0
      = (Ok (if decide (Misspelled Example.checker milion2)
             then token_scores Example.checker Example.income 10 milion2
             else []), tr0)
      ∧ token_suggestion_spellCheck income_corrected milion2 tr0
        = (Ok (if decide (Misspelled Example.checker milion2)
               then token_candidates Example.checker Example.income 10 milion2
               else []), tr0).
Proof.
  split; [exact (checker_topk 10)|]. split; [exact income_wf|].
  split; [reflexivity|]. split; [exact call_income_result|].
  split; [exact milion2_in_income|].
  exact (getters_after_call Example.checker Example.income [] income_corrected
           income_calls milion2 (checker_topk 10) income_wf eq_refl
           call_income_result milion2_in_income).
Defined.
